(** * Edge template engine: [src/utils/index.ts]

    A shallow embedding of the helper module of the Edge template engine
    (expression validators, tag-argument normalisers, the template path
    resolver and the section merger used by layouts), with the properties
    of these helpers stated and proved over the embedding.

    Conventions.
    - JavaScript strings are [string]s, read as sequences of one-byte code
      units.
    - A JavaScript object used as a dictionary is a [gmap string _] for
      the properties assigned to it, together with the members it inherits
      along its prototype chain.
    - Objects that the code mutates are modelled with explicit state
      passing: a one-cell state monad for the expression handed to the
      normalisers, and a store of section nodes for the merger. *)

From Stdlib Require Import String Ascii List Bool Arith Lia.
From stdpp Require Import gmap strings list.
Import ListNotations.

Local Open Scope string_scope.
Local Open Scope list_scope.

(** ** JavaScript string primitives *)

Module JsString.

(** [s.startsWith(p)], used to locate a separator. *)
Fixpoint starts_with (p s : string) : bool :=
  match p, s with
  | EmptyString, _ => true
  | String _ _, EmptyString => false
  | String a p', String b s' => if Ascii.eqb a b then starts_with p' s' else false
  end.

(** Drops the first [n] code units. *)
Fixpoint skip (n : nat) (s : string) : string :=
  match n, s with
  | O, _ => s
  | S _, EmptyString => EmptyString
  | S n', String _ s' => skip n' s'
  end.

(** Cuts [s] around the leftmost occurrence of the separator: the text
    before it and the text after it.  [None] when the separator does not
    occur. *)
Fixpoint cut (sep s : string) : option (string * string) :=
  if starts_with sep s then Some (EmptyString, skip (String.length sep) s)
  else match s with
       | EmptyString => None
       | String c s' =>
           match cut sep s' with
           | Some (before, after) => Some (String c before, after)
           | None => None
           end
       end.

(** [s.split(sep)] for a non-empty separator: cut at the leftmost
    occurrence, then split what follows.  The first argument bounds the
    number of cuts. *)
Fixpoint split_upto (n : nat) (sep s : string) : list string :=
  match n with
  | O => [s]
  | S n' =>
      match cut sep s with
      | None => [s]
      | Some (before, after) => before :: split_upto n' sep after
      end
  end.

Definition split (sep s : string) : list string :=
  split_upto (String.length s) sep s.

(** [pieces.join(sep)] *)
Fixpoint join (sep : string) (pieces : list string) : string :=
  match pieces with
  | [] => EmptyString
  | [p] => p
  | p :: rest => p +:+ sep +:+ join sep rest
  end.

(** [s.replace(/\./, by)]: only the leftmost dot is replaced (the regular
    expression carries no [g] flag). *)
Fixpoint replace_dot (by_ s : string) : string :=
  match s with
  | EmptyString => EmptyString
  | String c s' =>
      if Ascii.eqb c "."%char then by_ +:+ s' else String c (replace_dot by_ s')
  end.

(** White space removed by [String.prototype.trim]: TAB, LF, VT, FF, CR,
    SPACE and NO-BREAK SPACE. *)
Definition is_white_space (c : ascii) : bool :=
  let n := nat_of_ascii c in
  ((9 <=? n)%nat && (n <=? 13)%nat) || (n =? 32)%nat || (n =? 160)%nat.

Fixpoint trim_start (s : string) : string :=
  match s with
  | EmptyString => EmptyString
  | String c s' => if is_white_space c then trim_start s' else s
  end.

Fixpoint reverse_onto (acc s : string) : string :=
  match s with
  | EmptyString => acc
  | String c s' => reverse_onto (String c acc) s'
  end.

Definition reverse (s : string) : string := reverse_onto EmptyString s.

Definition trim_end (s : string) : string := reverse (trim_start (reverse s)).

(** [s.trim()] *)
Definition trim (s : string) : string := trim_end (trim_start s).

(** The string contains no dot. *)
Fixpoint dotless (s : string) : bool :=
  match s with
  | EmptyString => true
  | String c s' => if Ascii.eqb c "."%char then false else dotless s'
  end.

End JsString.

(** ** Path resolver *)

(** [path.sep] is fixed by the platform the engine runs on. *)
Inductive Platform := posix | win32.

Definition sep (p : Platform) : string :=
  match p with
  | posix => "/"
  | win32 => "\"
  end.

(** [a || b] on a possibly-undefined string: the empty string and
    [undefined] are both falsy. *)
Definition or_else (a : option string) (b : string) : string :=
  match a with
  | Some (String c s) => String c s
  | _ => b
  end.

(** [extractDiskAndTemplateName(templatePath)].  [split] never returns an
    empty array, so the destructured head is always there; the model gives
    the head of an empty array the text JavaScript prints for [undefined]. *)
Definition extractDiskAndTemplateName (p : Platform) (templatePath : string)
  : string * string :=
  let parts := JsString.split "::" templatePath in
  let disk := hd "undefined" parts in
  let rest := tl parts in
  let '(disk, rest) :=
    if (length rest =? 0)%nat then ("default", [disk]) else (disk, rest) in
  let pieces := JsString.split ".edge" (JsString.join "::" rest) in
  let template := hd "undefined" pieces in
  let ext := hd_error (tl pieces) in
  (disk, JsString.replace_dot (sep p) template +:+ "." +:+ or_else ext "edge").

(** ** Expressions

    Expression nodes come from the expression parser (ESTree shape).  The
    helpers read [type], [loc.start], and the fields of literals, sequences,
    object literals and assignments; every other kind of node is kept
    abstract. *)

Record Position := { line : nat; column : nat }.

Inductive OtherType :=
| ThisExpression | ArrayExpression | FunctionExpression | UnaryExpression
| UpdateExpression | BinaryExpression | LogicalExpression | MemberExpression
| ConditionalExpression | CallExpression | NewExpression
| ArrowFunctionExpression | TemplateLiteral.

#[local] Set Warnings "-register-all".
Inductive Expr :=
| Literal (loc : Position) (raw : string)
| Identifier (loc : Position) (name : string)
| SequenceExpression (loc : Position) (expressions : list Expr)
| ObjectExpression (loc : Position) (properties : list (Expr * Expr))
| AssignmentExpression (loc : Position) (left right : Expr)
| OtherExpression (type : OtherType) (loc : Position).

Definition other_type_name (t : OtherType) : string :=
  match t with
  | ThisExpression => "ThisExpression"
  | ArrayExpression => "ArrayExpression"
  | FunctionExpression => "FunctionExpression"
  | UnaryExpression => "UnaryExpression"
  | UpdateExpression => "UpdateExpression"
  | BinaryExpression => "BinaryExpression"
  | LogicalExpression => "LogicalExpression"
  | MemberExpression => "MemberExpression"
  | ConditionalExpression => "ConditionalExpression"
  | CallExpression => "CallExpression"
  | NewExpression => "NewExpression"
  | ArrowFunctionExpression => "ArrowFunctionExpression"
  | TemplateLiteral => "TemplateLiteral"
  end.

(** [expression.type] *)
Definition type_of (e : Expr) : string :=
  match e with
  | Literal _ _ => "Literal"
  | Identifier _ _ => "Identifier"
  | SequenceExpression _ _ => "SequenceExpression"
  | ObjectExpression _ _ => "ObjectExpression"
  | AssignmentExpression _ _ _ => "AssignmentExpression"
  | OtherExpression t _ => other_type_name t
  end.

(** [expression.loc.start] *)
Definition loc_of (e : Expr) : Position :=
  match e with
  | Literal l _ | Identifier l _ | SequenceExpression l _
  | ObjectExpression l _ | AssignmentExpression l _ _ | OtherExpression _ l => l
  end.

(** [expression.expressions]; only read on sequences. *)
Definition expressions_of (e : Expr) : list Expr :=
  match e with
  | SequenceExpression _ es => es
  | _ => []
  end.

(** [node.name]: [undefined] on anything but an identifier. *)
Definition name_of (e : Expr) : option string :=
  match e with
  | Identifier _ n => Some n
  | _ => None
  end.

(** A value interpolated in a template string; [undefined] prints as such. *)
Definition to_text (v : option string) : string :=
  match v with
  | Some s => s
  | None => "undefined"
  end.

(** ** Exceptions and completions *)

Inductive Exception :=
| EdgeError (message code : string) (line col : nat) (filename : string)
| TypeError.

Inductive Completion (A : Type) :=
| Return (a : A)
| Throw (e : Exception).

Arguments Return {A} a.
Arguments Throw {A} e.

(** The expression compiler, as far as the helpers use it:
    [parser.statementToString] renders a node to code text and
    [parser.options.filename] names the template being compiled. *)
Record Parser := {
  statementToString : Expr -> string;
  filename : string
}.

(** Rendering a value read from an array: the compiler dereferences its
    argument, so [undefined] (an index past the end) is a type error. *)
Definition render (parser : Parser) (v : option Expr) : Completion string :=
  match v with
  | Some e => Return (statementToString parser e)
  | None => Throw TypeError
  end.

(** ** A state monad over the expression object

    The normalisers receive the expression by reference.  [M A] is a
    computation that reads and may update that one object and either
    returns or throws. *)

Definition M (A : Type) : Type := Expr -> Completion A * Expr.

#[global] Instance M_ret : MRet M := fun A a e => (Return a, e).

#[global] Instance M_bind : MBind M := fun A B k m e =>
  match m e with
  | (Return a, e') => k a e'
  | (Throw x, e') => (Throw x, e')
  end.

Definition throw {A} (x : Exception) : M A := fun e => (Throw x, e).

(** Reads the object. *)
Definition get : M Expr := fun e => (Return e, e).

(** Runs a computation that does not touch the object. *)
Definition lift {A} (c : Completion A) : M A := fun e => (c, e).

(** [expression.expressions.shift()]: removes the first element of the
    array in place and returns it; [undefined] on an empty array. *)
Definition shift : M (option Expr) :=
  fun e =>
    match e with
    | SequenceExpression l (first :: others) =>
        (Return (Some first), SequenceExpression l others)
    | SequenceExpression l [] => (Return None, e)
    | _ => (Throw TypeError, e)
    end.

(** ** [ObjectifyString] *)

Module ObjectifyString.

Record t := { obj : string }.

Definition new : t := {| obj := "" |}.

(** [add(key, value)] *)
Definition add (key : option string) (value : string) (o : t) : t :=
  {| obj := if (String.length (obj o) =? 0)%nat
            then to_text key +:+ ": " +:+ value
            else obj o +:+ ", " +:+ to_text key +:+ ": " +:+ value |}.

(** [flush()]: the text between braces, and the builder emptied. *)
Definition flush (o : t) : string * t :=
  ("{ " +:+ obj o +:+ " }", new).

End ObjectifyString.

(** ** Expression validators *)

(** [expressions.indexOf(x)]; [None] stands for [-1]. *)
Fixpoint indexOf (x : string) (expressions : list string) : option nat :=
  match expressions with
  | [] => None
  | y :: rest => if String.eqb y x then Some 0 else option_map S (indexOf x rest)
  end.

Definition unallowed (tag : string) (e : Expr) (filename : string) : Exception :=
  EdgeError (type_of e +:+ " is not allowed for " +:+ tag +:+ " tag.")
            "E_UNALLOWED_EXPRESSION"
            (line (loc_of e)) (column (loc_of e)) filename.

(** [allowExpressions(tag, expression, expressions, filename)].  The
    expression may be a missing array element. *)
Definition allowExpressions (tag : string) (expression : option Expr)
    (expressions : list string) (filename : string) : Completion unit :=
  match expression with
  | None => Throw TypeError
  | Some e =>
      match indexOf (type_of e) expressions with
      | None => Throw (unallowed tag e filename)
      | Some _ => Return tt
      end
  end.

(** [disAllowExpressions(tag, expression, expressions, filename)] *)
Definition disAllowExpressions (tag : string) (expression : option Expr)
    (expressions : list string) (filename : string) : Completion unit :=
  match expression with
  | None => Throw TypeError
  | Some e =>
      match indexOf (type_of e) expressions with
      | Some _ => Throw (unallowed tag e filename)
      | None => Return tt
      end
  end.

(** ** Tag-argument normalisers *)

(** The body of [arg.properties.forEach]. *)
Definition add_property (parser : Parser) (o : ObjectifyString.t)
    (prop : Expr * Expr) : ObjectifyString.t :=
  let key := statementToString parser (fst prop) in
  let value := statementToString parser (snd prop) in
  ObjectifyString.add (Some key) value o.

(** The body of [expression.expressions.forEach]. *)
Definition add_argument (parser : Parser) (o : ObjectifyString.t)
    (arg : Expr) : ObjectifyString.t :=
  match arg with
  | ObjectExpression _ properties => fold_left (add_property parser) properties o
  | AssignmentExpression _ lhs rhs =>
      ObjectifyString.add (name_of lhs) (statementToString parser rhs) o
  | _ => o
  end.

(** [parseSequenceExpression(expression, parser)], as a computation over
    the expression. *)
Definition parseSequenceExpressionM (parser : Parser) : M (string * string) :=
  expression ← get;
  if String.eqb (type_of expression) "SequenceExpression" then
    first ← shift;
    name ← lift (render parser first);
    expression ← get;
    let objectifyString :=
      fold_left (add_argument parser) (expressions_of expression)
                ObjectifyString.new in
    mret (name, fst (ObjectifyString.flush objectifyString))
  else
    mret (statementToString parser expression, "{}").

(** The call: what it returns, and the expression as the call leaves it. *)
Definition parseSequenceExpression (expression : Expr) (parser : Parser)
  : Completion (string * string) * Expr :=
  parseSequenceExpressionM parser expression.

Definition max_arguments (e : Expr) (filename : string) : Exception :=
  EdgeError "Maximum of 2 arguments are allowed for slot tag" "E_MAX_ARGUMENTS"
            (line (loc_of e)) (column (loc_of e)) filename.

(** [parseAsKeyValuePair(expression, parser, valueExpressions)] *)
Definition parseAsKeyValuePairM (parser : Parser) (valueExpressions : list string)
  : M (string * option string) :=
  expression ← get;
  lift (allowExpressions "slot" (Some expression)
          ["Literal"; "SequenceExpression"] (filename parser)) ;;
  match expression with
  | Literal _ raw => mret (raw, None)
  | _ =>
      if (2 <? length (expressions_of expression))%nat then
        throw (max_arguments expression (filename parser))
      else
        lift (allowExpressions "slot" (expressions_of expression !! 0%nat)
                ["Literal"] (filename parser)) ;;
        (if negb (length valueExpressions =? 0)%nat then
           lift (allowExpressions "slot" (expressions_of expression !! 1%nat)
                   valueExpressions (filename parser))
         else mret tt) ;;
        match expressions_of expression !! 0%nat with
        | Some (Literal _ raw) =>
            value ← lift (render parser (expressions_of expression !! 1%nat));
            mret (raw, Some value)
        | _ => throw TypeError
        end
  end.

Definition parseAsKeyValuePair (expression : Expr) (parser : Parser)
    (valueExpressions : list string)
  : Completion (string * option string) * Expr :=
  parseAsKeyValuePairM parser valueExpressions expression.

(** ** Tokens

    The token tree produced by the lexer.  Tag tokens carry
    [properties.name], [properties.jsArg] and [children]; the remaining
    kinds of token (raw text, new lines, mustaches) are leaves. *)

Inductive TagTypes := TAG | ETAG.

Inductive LeafTypes := RAW | NEWLINE | MUSTACHE | SMUSTACHE.

Inductive Token :=
| TagToken (type : TagTypes) (name jsArg : string) (lineno : nat)
           (children : list Token)
| LeafToken (type : LeafTypes) (value : string) (lineno : nat).

(** [token.children] *)
Definition children_of (token : Token) : list Token :=
  match token with
  | TagToken _ _ _ _ children => children
  | LeafToken _ _ _ => []
  end.

(** [token.properties.jsArg] *)
Definition jsArg_of (token : Token) : string :=
  match token with
  | TagToken _ _ jsArg _ _ => jsArg
  | LeafToken _ _ _ => ""
  end.

(** The assignment [token.children = children]. *)
Definition with_children (token : Token) (children : list Token) : Token :=
  match token with
  | TagToken type name jsArg lineno _ => TagToken type name jsArg lineno children
  | LeafToken _ _ _ => token
  end.

(** [isBlock(token, name)] *)
Definition isBlock (token : Token) (name : string) : bool :=
  match token with
  | TagToken _ n _ _ _ => String.eqb n name
  | LeafToken _ _ _ => false
  end.

(** [hasChildSuper(token)] *)
Definition hasChildSuper (token : Token) : bool :=
  match children_of token with
  | [] => false
  | first :: _ => isBlock first "super"
  end.

(** The key a section is filed under: [node.properties.jsArg.trim()]. *)
Definition section_id (node : Token) : string := JsString.trim (jsArg_of node).

(** ** Section merger

    [extendedSections] is built by assignments to an object literal [{}].
    The model keeps the properties the assignments create in a finite map.
    An assignment to the key [__proto__] does not create a property: it
    makes the node the prototype of the dictionary, and reading
    [__proto__] gives that node back, so that the map files it under that
    key like any other.  What the dictionary inherits besides is told by
    [inherits]; [get_section] is the property read [extendedSections[id]].

    The merger assigns to the [children] of the nodes on file while it
    walks the base list, and the array it builds holds references to them,
    so the dictionary doubles as the store of the nodes it names: an
    assignment to a node's [children] updates the entry, and a reference is
    read back from the store once the walk is over. *)

Definition extendedSections (extended : list Token) : gmap string Token :=
  fold_left (fun sections node => <[section_id node := node]> sections)
            (List.filter (fun node => isBlock node "section") extended)
            ∅.

Definition extendedSetCalls (extended : list Token) : list Token :=
  List.filter (fun node => isBlock node "set") extended.

(** The members every object inherits from [Object.prototype]: eleven
    functions, and the accessor [__proto__], which answers with the
    prototype itself. *)
Definition Object_prototype : list string :=
  ["constructor"; "hasOwnProperty"; "isPrototypeOf"; "propertyIsEnumerable";
   "toLocaleString"; "toString"; "valueOf";
   "__defineGetter__"; "__defineSetter__"; "__lookupGetter__";
   "__lookupSetter__"; "__proto__"].

(** The members of a tag token, which the dictionary inherits once a node
    has been made its prototype: a type, that is a string that is not
    empty, the properties and the location, two objects, and the array of
    children. *)
Definition tag_token_members : list string :=
  ["type"; "properties"; "loc"; "children"].

Definition member (id : string) (names : list string) : bool :=
  existsb (String.eqb id) names.

(** An identifier without a property of its own that the dictionary finds
    along its prototype chain.  Each of these members holds a value that is
    truthy and has no [children]. *)
Definition inherits (sections : gmap string Token) (id : string) : bool :=
  member id Object_prototype
  || match sections !! "__proto__" with
     | Some _ => member id tag_token_members
     | None => false
     end.

(** The value of [extendedSections[id]]. *)
Inductive Property :=
| Filed (node : Token)
| Inherited
| Undefined.

Definition get_section (sections : gmap string Token) (id : string) : Property :=
  match sections !! id with
  | Some node => Filed node
  | None => if inherits sections id then Inherited else Undefined
  end.

(** An element of the array built by [base.map]: a token of the base list,
    or a reference to the extended section filed under an identifier. *)
Inductive Slot :=
| Own (node : Token)
| Shared (id : string).

(** The callback of [base.map], with the store threaded through.  An
    inherited member passes the test [!extendedNode] and reaches
    [hasChildSuper], which reads the [length] of its [children]: there are
    none, and the read throws. *)
Definition replace_section (sections : gmap string Token) (node : Token)
  : gmap string Token * Completion Slot :=
  if negb (isBlock node "section") then (sections, Return (Own node))
  else
    match get_section sections (section_id node) with
    | Undefined => (sections, Return (Own node))
    | Inherited => (sections, Throw TypeError)
    | Filed extendedNode =>
        if hasChildSuper extendedNode then
          (<[section_id node :=
               with_children extendedNode
                 (children_of node ++ children_of extendedNode)]> sections,
           Return (Shared (section_id node)))
        else (sections, Return (Shared (section_id node)))
    end.

(** A slot put in front of the slots that follow, if there are any. *)
Definition push (slot : Slot) (rest : Completion (list Slot))
  : Completion (list Slot) :=
  match rest with
  | Return slots => Return (slot :: slots)
  | Throw e => Throw e
  end.

(** [base.map]: the walk stops at the first callback that throws, and
    leaves the store as it is then. *)
Fixpoint map_base (sections : gmap string Token) (base : list Token)
  : gmap string Token * Completion (list Slot) :=
  match base with
  | [] => (sections, Return [])
  | node :: rest =>
      match replace_section sections node with
      | (sections, Return slot) =>
          let '(sections, slots) := map_base sections rest in
          (sections, push slot slots)
      | (sections, Throw e) => (sections, Throw e)
      end
  end.

(** Reading an element of the returned array. *)
Definition read (sections : gmap string Token) (slot : Slot) : Token :=
  match slot with
  | Own node => node
  | Shared id => default (LeafToken RAW "" 0) (sections !! id)
  end.

(** [mergeSections(base, extended)] *)
Definition mergeSections (base extended : list Token) : Completion (list Token) :=
  match map_base (extendedSections extended) base with
  | (sections, Return finalNodes) =>
      Return (extendedSetCalls extended ++ map (read sections) finalNodes)
  | (_, Throw e) => Throw e
  end.

(** ** Reference definitions

    The same results written the way the design describes them, to be
    compared with the definitions above. *)

(** The disk and the template part of a reference: the texts around the
    leftmost [::], or the default disk when there is none. *)
Definition disk_and_template (reference : string) : string * string :=
  match JsString.cut "::" reference with
  | Some (disk, template) => (disk, template)
  | None => ("default", reference)
  end.

(** The dotted path and the extension of a template part: the path is the
    text before the leftmost [.edge]; the extension is the text that
    follows it, up to the next [.edge] if there is one, and [edge] when
    that text is empty or there is no [.edge] at all. *)
Definition path_and_extension (template : string) : string * string :=
  match JsString.cut ".edge" template with
  | None => (template, "edge")
  | Some (path, after) =>
      let ext := match JsString.cut ".edge" after with
                 | Some (ext, _) => ext
                 | None => after
                 end in
      (path, if String.eqb ext "" then "edge" else ext)
  end.

(** The dotted path with its leftmost dot, if any, turned into the path
    separator. *)
Definition namespaced (p : Platform) (path : string) : string :=
  match JsString.cut "." path with
  | Some (namespace, name) => namespace +:+ sep p +:+ name
  | None => path
  end.

Definition resolved_reference (p : Platform) (reference : string)
  : string * string :=
  let '(disk, template) := disk_and_template reference in
  let '(path, ext) := path_and_extension template in
  (disk, namespaced p path +:+ "." +:+ ext).

(** The [(key, value)] pairs one element of a sequence contributes to the
    props literal. *)
Definition contributed_pairs (parser : Parser) (arg : Expr)
  : list (string * string) :=
  match arg with
  | AssignmentExpression _ lhs rhs =>
      [(to_text (name_of lhs), statementToString parser rhs)]
  | ObjectExpression _ properties =>
      map (fun prop => (statementToString parser (fst prop),
                        statementToString parser (snd prop))) properties
  | _ => []
  end.

Definition key_value (pair : string * string) : string :=
  fst pair +:+ ": " +:+ snd pair.

(** Pairs joined by commas and wrapped in braces. *)
Definition props_literal (pairs : list (string * string)) : string :=
  "{ " +:+ JsString.join ", " (map key_value pairs) +:+ " }".

(** The builder holds the pairs added so far, joined by commas. *)
Definition holds (o : ObjectifyString.t) (pairs : list (string * string)) : Prop :=
  ObjectifyString.obj o = JsString.join ", " (map key_value pairs).

(** An element of a sequence that feeds the props literal. *)
Definition contributes (arg : Expr) : bool :=
  match arg with
  | ObjectExpression _ _ | AssignmentExpression _ _ _ => true
  | _ => false
  end.

(** The section a base token is paired with, if any. *)
Definition is_section_named (id : string) (node : Token) : bool :=
  isBlock node "section" && String.eqb (section_id node) id.

(** Every entry of the store is a section filed under its own identifier. *)
Definition files_sections (sections : gmap string Token) : Prop :=
  forall id node,
    sections !! id = Some node ->
    isBlock node "section" = true /\ section_id node = id.

(** No section at the top level of the base list asks the dictionary for
    a member it only inherits. *)
Definition no_inherited (sections : gmap string Token) (base : list Token)
  : Prop :=
  forall b, In b base -> isBlock b "section" = true ->
            get_section sections (section_id b) <> Inherited.

(** Where a slot comes from: a token of the base list, or the entry of the
    store filed under the identifier of a section of the base list. *)
Definition slot_from (base : list Token) (sections : gmap string Token)
    (slot : Slot) : Prop :=
  match slot with
  | Own node => In node base
  | Shared id =>
      is_Some (sections !! id)
      /\ exists b, In b base /\ isBlock b "section" = true /\ section_id b = id
  end.

(** Tokens for examples: a layout with two sections, and children that
    override or extend the first of them. *)
Definition text (value : string) : Token := LeafToken RAW value 1.

Definition tag (name jsArg : string) (children : list Token) : Token :=
  TagToken TAG name jsArg 1 children.

Definition layout : list Token :=
  [text "<main>";
   tag "section" "'content'" [text "layout content"];
   tag "section" "'sidebar'" [text "layout sidebar"];
   text "</main>"].

Definition overriding_child : list Token :=
  [text "dropped";
   tag "set" "'title', 'Home'" [];
   tag "section" " 'content' " [text "child content"];
   tag "set" "'lang', 'en'" []].

Definition extending_child : list Token :=
  [tag "section" "'content'" [tag "super" "" []; text "child content"]].

(** A rendering function for examples: literals and identifiers print as
    written. *)
Definition sample_parser : Parser :=
  {| statementToString := fun e =>
       match e with
       | Literal _ raw => raw
       | Identifier _ name => name
       | _ => "?"
       end;
     filename := "welcome.edge" |}.

(** ** Further definitions *)

(** Pairs added to a builder one after the other. *)
Definition add_all (pairs : list (string * string)) (o : ObjectifyString.t)
  : ObjectifyString.t :=
  fold_left (fun o pair => ObjectifyString.add (Some (fst pair)) (snd pair) o)
            pairs o.

(** The nodes of the extended sections as [mergeSections] leaves them: the
    store at the end of the walk over the base list, or where the walk
    stopped. *)
Definition sections_after (base extended : list Token) : gmap string Token :=
  (map_base (extendedSections extended) base).1.

(** A string of white space only. *)
Fixpoint blank (s : string) : bool :=
  match s with
  | EmptyString => true
  | String c s' => JsString.is_white_space c && blank s'
  end.

(** What a base token becomes when each section is declared once: itself,
    or the extended section filed under its identifier, with the children
    of the base section put in front when that section starts with a
    [super] tag. *)
Definition merged_node (sections : gmap string Token) (node : Token) : Token :=
  if isBlock node "section" then
    match sections !! section_id node with
    | Some extendedNode =>
        if hasChildSuper extendedNode
        then with_children extendedNode
               (children_of node ++ children_of extendedNode)
        else extendedNode
    | None => node
    end
  else node.

(** The identifiers of the sections at the top level of a list. *)
Definition section_ids (tokens : list Token) : list string :=
  map section_id (List.filter (fun node => isBlock node "section") tokens).

(** * Properties *)

(** ** Strings *)

Section Strings.

Import JsString.

Lemma append_cons c (s t : string) : String c s +:+ t = String c (s +:+ t).
Proof. reflexivity. Qed.

Lemma append_empty_l (s : string) : "" +:+ s = s.
Proof. reflexivity. Qed.

Lemma append_length (s t : string) :
  String.length (s +:+ t) = String.length s + String.length t.
Proof. induction s as [|c s IH]; [done|]. rewrite append_cons. simpl. lia. Qed.

Lemma append_assoc (s t u : string) : (s +:+ t) +:+ u = s +:+ t +:+ u.
Proof. induction s as [|c s IH]; [done|]. rewrite !append_cons. by f_equal. Qed.

Lemma starts_with_app (p s : string) : starts_with p (p +:+ s) = true.
Proof.
  induction p as [|c p IH]; [done|].
  rewrite append_cons. simpl. by rewrite Ascii.eqb_refl.
Qed.

Lemma starts_with_skip (p s : string) :
  starts_with p s = true -> s = p +:+ skip (String.length p) s.
Proof.
  revert s. induction p as [|c p IH]; intros s H; [done|].
  destruct s as [|d s]; [done|]. simpl in H.
  destruct (Ascii.eqb c d) eqn:E; [|done].
  apply Ascii.eqb_eq in E as ->. rewrite append_cons. simpl. f_equal. by apply IH.
Qed.

(** [cut] splits the string around an occurrence of the separator... *)
Lemma cut_Some (sp s before after : string) :
  cut sp s = Some (before, after) -> s = before +:+ sp +:+ after.
Proof.
  revert before after. induction s as [|c s IH]; intros before after.
  - simpl. destruct (starts_with sp "") eqn:E; [|done].
    intros [= <- <-]. by apply starts_with_skip in E.
  - simpl. destruct (starts_with sp (String c s)) eqn:E.
    + intros [= <- <-]. by apply starts_with_skip in E.
    + destruct (cut sp s) as [[b a]|] eqn:C; [|done].
      intros [= <- <-]. rewrite append_cons. f_equal. by apply IH.
Qed.


Lemma cut_None (sp s : string) :
  cut sp s = None -> forall before after : string, s <> before +:+ sp +:+ after.
Proof.
  induction s as [|c s IH]; simpl.
  - destruct (starts_with sp "") eqn:E; [done|]. intros _ before after H.
    rewrite H in E. destruct before; [|done].
    rewrite append_empty_l, starts_with_app in E. done.
  - destruct (starts_with sp (String c s)) eqn:E; [done|].
    destruct (cut sp s) as [[b a]|] eqn:C; [done|].
    intros _ before after H. destruct before as [|d before].
    + rewrite append_empty_l in H. rewrite H, starts_with_app in E. done.
    + rewrite append_cons in H. injection H as -> ->. by eapply IH.
Qed.

Lemma cut_empty (sp : string) : sp <> "" -> cut sp "" = None.
Proof. by destruct sp. Qed.

(** What follows a cut is shorter than the string that was cut, so the
    bound [split] starts from is never reached. *)
Lemma cut_shorter (sp s before after : string) :
  sp <> "" -> cut sp s = Some (before, after) ->
  String.length after < String.length s.
Proof.
  intros Hsp H. apply cut_Some in H as ->. rewrite !append_length.
  destruct sp; [done|]. simpl. lia.
Qed.

Lemma split_upto_enough (sp : string) (n m : nat) (s : string) :
  sp <> "" -> String.length s <= n -> String.length s <= m ->
  split_upto n sp s = split_upto m sp s.
Proof.
  intros Hsp. revert m s. induction n as [|n IH]; intros m s Hn Hm.
  - destruct s; [|simpl in Hn; lia].
    destruct m; [done|]. cbn [split_upto]. by rewrite cut_empty.
  - destruct m as [|m].
    + destruct s; [|simpl in Hm; lia]. cbn [split_upto]. by rewrite cut_empty.
    + cbn [split_upto]. destruct (cut sp s) as [[b a]|] eqn:C; [|done].
      pose proof (cut_shorter _ _ _ _ Hsp C). f_equal. apply IH; lia.
Qed.

Lemma split_unfold (sp s : string) :
  sp <> "" ->
  split sp s =
    match cut sp s with
    | Some (before, after) => before :: split sp after
    | None => [s]
    end.
Proof.
  intros Hsp. unfold split. destruct s as [|c s].
  - cbn [split_upto String.length]. by rewrite cut_empty.
  - change (String.length (String c s)) with (S (String.length s)).
    cbn [split_upto]. destruct (cut sp (String c s)) as [[b a]|] eqn:C; [|done].
    pose proof (cut_shorter _ _ _ _ Hsp C) as Hlt. simpl in Hlt.
    f_equal. apply split_upto_enough; [done|lia|lia].
Qed.

Lemma split_upto_nonempty (n : nat) (sp s : string) : split_upto n sp s <> [].
Proof. destruct n; cbn [split_upto]; [done|]. by destruct (cut sp s) as [[? ?]|]. Qed.

Lemma join_cons (sp p : string) (rest : list string) :
  rest <> [] -> join sp (p :: rest) = p +:+ sp +:+ join sp rest.
Proof. by destruct rest. Qed.

(** Joining the pieces of a split gives the string back. *)
Lemma join_split_upto (n : nat) (sp s : string) :
  join sp (split_upto n sp s) = s.
Proof.
  revert s. induction n as [|n IH]; intros s; [done|].
  cbn [split_upto]. destruct (cut sp s) as [[b a]|] eqn:C; [|done].
  rewrite join_cons by apply split_upto_nonempty.
  rewrite IH. symmetry. by apply cut_Some.
Qed.

Lemma cut_dotless (namespace name : string) :
  dotless namespace = true ->
  cut "." (namespace +:+ "." +:+ name) = Some (namespace, name).
Proof.
  induction namespace as [|c s IH]; [done|].
  rewrite append_cons. cbn [dotless cut starts_with].
  rewrite (Ascii.eqb_sym "." c).
  destruct (Ascii.eqb c "."); [done|]. intros H. by rewrite IH.
Qed.

Lemma join_split (sp s : string) : join sp (split sp s) = s.
Proof. apply join_split_upto. Qed.

Lemma replace_dot_cut (by_ s : string) :
  replace_dot by_ s =
    match cut "." s with
    | Some (before, after) => before +:+ by_ +:+ after
    | None => s
    end.
Proof.
  induction s as [|c s IH]; [done|].
  cbn [replace_dot cut starts_with].
  destruct (Ascii.eqb c ".") eqn:E.
  - apply Ascii.eqb_eq in E as ->. done.
  - rewrite Ascii.eqb_sym, E. rewrite IH.
    by destruct (cut "." s) as [[b a]|].
Qed.

End Strings.

(** ** Path resolver *)

Lemma length_split (sp s : string) : (length (JsString.split sp s) =? 0)%nat = false.
Proof.
  unfold JsString.split.
  destruct (JsString.split_upto _ sp s) eqn:E; [|done].
  by apply split_upto_nonempty in E.
Qed.

Lemma or_else_eqb (x d : string) :
  or_else (Some x) d = if String.eqb x "" then d else x.
Proof. by destruct x. Qed.

(** The file name built from the template part. *)
Lemma file_of_template (p : Platform) (template : string) :
  JsString.replace_dot (sep p) (hd "undefined" (JsString.split ".edge" template))
    +:+ "." +:+ or_else (head (tail (JsString.split ".edge" template))) "edge"
  = let '(path, ext) := path_and_extension template in
    namespaced p path +:+ "." +:+ ext.
Proof.
  unfold path_and_extension, namespaced.
  rewrite (split_unfold ".edge") by done.
  destruct (JsString.cut ".edge" template) as [[path after]|]; cbn [hd tail head].
  - rewrite (split_unfold ".edge") by done. rewrite replace_dot_cut.
    destruct (JsString.cut ".edge" after) as [[ext more]|]; cbn [head];
      by rewrite or_else_eqb.
  - by rewrite replace_dot_cut.
Qed.

Lemma extract_resolved (p : Platform) (reference : string) :
  extractDiskAndTemplateName p reference = resolved_reference p reference.
Proof.
  unfold extractDiskAndTemplateName, resolved_reference, disk_and_template.
  rewrite (split_unfold "::") by done.
  destruct (JsString.cut "::" reference) as [[disk template]|] eqn:C; cbn [hd tl].
  - rewrite length_split. cbv beta iota.
    rewrite join_split, file_of_template.
    by destruct (path_and_extension template).
  - cbn [length Nat.eqb JsString.join]. cbv beta iota. rewrite file_of_template.
    by destruct (path_and_extension reference).
Qed.

(** C7: [extractDiskAndTemplateName] cuts the reference at the leftmost
    [::] (the disk is [default] when there is none), cuts the template part
    at the leftmost [.edge] to find the extension (default [edge]), turns
    only the leftmost dot of the dotted path into the platform separator
    and appends the extension; the two documented references resolve as
    documented. *)
Theorem extractDiskAndTemplateName_spec :
  (forall p reference,
      extractDiskAndTemplateName p reference = resolved_reference p reference)
  /\ (forall p namespace name,
        JsString.dotless namespace = true ->
        JsString.cut ".edge" (namespace +:+ "." +:+ name) = None ->
        JsString.cut "::" (namespace +:+ "." +:+ name) = None ->
        extractDiskAndTemplateName p (namespace +:+ "." +:+ name)
        = ("default", namespace +:+ sep p +:+ name +:+ ".edge"))
  /\ (forall p, extractDiskAndTemplateName p "users::list" = ("users", "list.edge"))
  /\ (forall p, extractDiskAndTemplateName p "list" = ("default", "list.edge")).
Proof.
  split; [apply extract_resolved|]. split; [|split; by intros []].
  intros p namespace name Hdot Hext Hdisk.
  rewrite extract_resolved.
  unfold resolved_reference, disk_and_template, path_and_extension, namespaced.
  rewrite Hdisk, Hext, cut_dotless by done.
  by rewrite !append_assoc.
Qed.

Lemma extractDiskAndTemplateName_spec_witness :
  extractDiskAndTemplateName posix "users.list.index"
  = ("default", "users/list.index.edge").
Proof.
  exact (proj1 (proj2 extractDiskAndTemplateName_spec)
           posix "users" "list.index" eq_refl eq_refl eq_refl).
Defined.

(** ** Tag-argument normalisers *)

Section Normalisers.

Variable parser : Parser.

Local Abbreviation rendered := (statementToString parser).

Lemma key_value_length (pair : string * string) :
  2 <= String.length (key_value pair).
Proof. unfold key_value. rewrite !append_length. simpl. lia. Qed.

Lemma join_length (sp p : string) (rest : list string) :
  String.length p <= String.length (JsString.join sp (p :: rest)).
Proof.
  destruct rest; [done|]. rewrite join_cons by done. rewrite append_length. lia.
Qed.

Lemma join_snoc (sp x : string) (pieces : list string) :
  pieces <> [] ->
  JsString.join sp (pieces ++ [x]) = JsString.join sp pieces +:+ sp +:+ x.
Proof.
  induction pieces as [|p rest IH]; [done|]. intros _.
  destruct rest as [|q rest]; [done|].
  change ((p :: q :: rest) ++ [x]) with (p :: ((q :: rest) ++ [x])).
  rewrite !join_cons by done. rewrite IH by done. by rewrite !append_assoc.
Qed.

Lemma holds_add (o : ObjectifyString.t) pairs (key : option string) (value : string) :
  holds o pairs ->
  holds (ObjectifyString.add key value o) (pairs ++ [(to_text key, value)]).
Proof.
  unfold holds, ObjectifyString.add. intros H. cbn [ObjectifyString.obj].
  rewrite H. destruct pairs as [|pair pairs]; [done|].
  rewrite map_app. cbn [map]. rewrite join_snoc by done.
  pose proof (key_value_length pair).
  pose proof (join_length ", " (key_value pair) (map key_value pairs)).
  destruct (Nat.eqb_spec (String.length (JsString.join ", " (key_value pair :: map key_value pairs))) 0);
    [lia|].
  done.
Qed.

Lemma holds_properties properties : forall o pairs,
  holds o pairs ->
  holds (fold_left (add_property parser) properties o)
        (pairs ++ map (fun prop => (rendered (fst prop), rendered (snd prop))) properties).
Proof.
  induction properties as [|prop properties IH]; intros o pairs H; cbn [fold_left map].
  - by rewrite app_nil_r.
  - rewrite cons_middle, app_assoc. apply IH.
    unfold add_property. by apply (holds_add _ _ (Some _)).
Qed.

Lemma holds_argument o pairs (arg : Expr) :
  holds o pairs ->
  holds (add_argument parser o arg) (pairs ++ contributed_pairs parser arg).
Proof.
  intros H. destruct arg; cbn [add_argument contributed_pairs];
    rewrite ?app_nil_r; try done.
  - by apply holds_properties.
  - by apply holds_add.
Qed.

Lemma holds_arguments (args : list Expr) : forall o pairs,
  holds o pairs ->
  holds (fold_left (add_argument parser) args o)
        (pairs ++ flat_map (contributed_pairs parser) args).
Proof.
  induction args as [|arg args IH]; intros o pairs H; cbn [fold_left flat_map].
  - by rewrite app_nil_r.
  - rewrite app_assoc. apply IH. by apply holds_argument.
Qed.

(** What [parseSequenceExpression] returns on a sequence. *)
Lemma parseSequenceExpression_sequence l (first : Expr) (rest : list Expr) :
  fst (parseSequenceExpression (SequenceExpression l (first :: rest)) parser)
  = Return (rendered first,
            props_literal (flat_map (contributed_pairs parser) rest)).
Proof.
  unfold parseSequenceExpression, parseSequenceExpressionM.
  cbv [mbind M_bind mret M_ret get shift lift render].
  cbn [type_of String.eqb Ascii.eqb Bool.eqb expressions_of fst].
  unfold ObjectifyString.flush, props_literal. cbn [fst]. do 3 f_equal.
  by rewrite (holds_arguments rest ObjectifyString.new []).
Qed.

Lemma not_sequence (e : Expr) :
  type_of e <> "SequenceExpression" ->
  String.eqb (type_of e) "SequenceExpression" = false.
Proof. intros H. by apply String.eqb_neq. Qed.

Lemma parseSequenceExpression_other (e : Expr) :
  type_of e <> "SequenceExpression" ->
  parseSequenceExpression e parser = (Return (rendered e, "{}"), e).
Proof.
  intros H. unfold parseSequenceExpression, parseSequenceExpressionM.
  cbv [mbind M_bind mret M_ret get]. by rewrite not_sequence.
Qed.

Lemma no_pairs (rest : list Expr) :
  forallb (fun arg => negb (contributes arg)) rest = true ->
  flat_map (contributed_pairs parser) rest = [].
Proof.
  induction rest as [|arg rest IH]; [done|]. cbn [forallb flat_map].
  intros [Harg Hrest]%andb_prop. rewrite IH by done.
  by destruct arg.
Qed.

End Normalisers.

(** C6: on anything but a sequence [parseSequenceExpression] returns the
    rendered expression and the text [{}]; on a sequence the name is the
    first element rendered and the props literal lists, comma-joined
    between braces, the pair of every assignment element (the name of its
    left side, its right side rendered) and the rendered pairs of every
    object-literal element, other elements adding nothing; so
    [('card', title='hi')] gives ['card'] and [{ title: 'hi' }]. *)
Theorem parseSequenceExpression_spec :
  (forall parser e,
      type_of e <> "SequenceExpression" ->
      fst (parseSequenceExpression e parser)
      = Return (statementToString parser e, "{}"))
  /\ (forall parser l first rest,
        fst (parseSequenceExpression (SequenceExpression l (first :: rest)) parser)
        = Return (statementToString parser first,
                  props_literal (flat_map (contributed_pairs parser) rest)))
  /\ (forall l l1 l2 l3 l4,
        fst (parseSequenceExpression
               (SequenceExpression l
                  [Literal l1 "'card'";
                   AssignmentExpression l2 (Identifier l3 "title") (Literal l4 "'hi'")])
               sample_parser)
        = Return ("'card'", "{ title: 'hi' }")).
Proof.
  split; [|split].
  - intros parser e H. by rewrite parseSequenceExpression_other.
  - intros. apply parseSequenceExpression_sequence.
  - intros. by rewrite parseSequenceExpression_sequence.
Qed.

Lemma parseSequenceExpression_spec_witness :
  fst (parseSequenceExpression (Literal {| line := 1; column := 11 |} "'card'")
         sample_parser)
  = Return ("'card'", "{}").
Proof.
  apply (proj1 parseSequenceExpression_spec sample_parser). discriminate.
Defined.

(** C10: a sequence whose elements after the first are neither object
    literals nor assignments gets the props literal [{  }], with two
    spaces between the braces, which is not the text [{}] returned for an
    expression that is not a sequence. *)
Theorem parseSequenceExpression_empty_props parser l first rest :
  forallb (fun arg => negb (contributes arg)) rest = true ->
  fst (parseSequenceExpression (SequenceExpression l (first :: rest)) parser)
  = Return (statementToString parser first, "{  }")
  /\ "{  }" <> "{}".
Proof.
  intros H. split; [|done].
  rewrite parseSequenceExpression_sequence. by rewrite no_pairs.
Qed.

Lemma parseSequenceExpression_empty_props_witness :
  fst (parseSequenceExpression
         (SequenceExpression {| line := 1; column := 11 |}
            [Literal {| line := 1; column := 12 |} "'card'";
             Identifier {| line := 1; column := 20 |} "user"])
         sample_parser)
  = Return ("'card'", "{  }")
  /\ "{  }" <> "{}".
Proof.
  apply (parseSequenceExpression_empty_props sample_parser). reflexivity.
Defined.

(** ** Key/value pairs *)

Lemma indexOf_None (x : string) (expressions : list string) :
  indexOf x expressions = None <-> ~ In x expressions.
Proof.
  induction expressions as [|y rest IH]; cbn [indexOf In]; [tauto|].
  destruct (String.eqb_spec y x) as [->|Hne].
  - split; [done|]. intros H. exfalso. apply H. by left.
  - destruct (indexOf x rest); cbn [option_map].
    + split; [done|]. intros H.
      assert (Some n = None) as [=]. apply IH. tauto.
    + split; [|done]. intros _ [?|?]; [done|]. by apply IH.
Qed.

Lemma indexOf_Some (x : string) (expressions : list string) :
  In x expressions -> exists i, indexOf x expressions = Some i.
Proof.
  intros H. destruct (indexOf x expressions) eqn:E; [eauto|].
  by apply indexOf_None in E.
Qed.

Lemma allowExpressions_allowed tag (e : Expr) expressions file :
  In (type_of e) expressions ->
  allowExpressions tag (Some e) expressions file = Return tt.
Proof.
  intros [i H]%indexOf_Some. unfold allowExpressions. by rewrite H.
Qed.

Lemma allowExpressions_unallowed tag (e : Expr) expressions file :
  ~ In (type_of e) expressions ->
  allowExpressions tag (Some e) expressions file = Throw (unallowed tag e file).
Proof.
  intros H%indexOf_None. unfold allowExpressions. by rewrite H.
Qed.

Lemma allow_sequence l es file :
  allowExpressions "slot" (Some (SequenceExpression l es))
    ["Literal"; "SequenceExpression"] file = Return tt.
Proof. reflexivity. Qed.

Lemma allow_literal l raw expressions file :
  allowExpressions "slot" (Some (Literal l raw)) ("Literal" :: expressions) file
  = Return tt.
Proof. reflexivity. Qed.

(** Unfolds a call of [parseAsKeyValuePair] and runs the checks that are
    settled by the shape of the expression. *)
Ltac run_pair :=
  unfold parseAsKeyValuePair, parseAsKeyValuePairM;
  cbv [mbind M_bind mret M_ret get lift throw];
  cbn [expressions_of length Nat.ltb Nat.leb Nat.eqb negb lookup list_lookup];
  rewrite ?allow_sequence, ?allow_literal.

(** C5: [parseAsKeyValuePair] throws [E_UNALLOWED_EXPRESSION] unless the
    expression is a literal or a sequence; a literal gives its raw text
    and no value; a sequence of more than two elements throws
    [E_MAX_ARGUMENTS] with the line and column of the sequence and the file
    name; otherwise the first element must be a literal and, when kinds are
    given for the value, the kind of the second element must be one of
    them, each checked by the validator; the result is then the raw text of
    the first element and the second element rendered. *)
Theorem parseAsKeyValuePair_spec (parser : Parser) (valueExpressions : list string) :
  (forall e,
      type_of e <> "Literal" -> type_of e <> "SequenceExpression" ->
      fst (parseAsKeyValuePair e parser valueExpressions)
      = Throw (EdgeError (type_of e +:+ " is not allowed for slot tag.")
                 "E_UNALLOWED_EXPRESSION"
                 (line (loc_of e)) (column (loc_of e)) (filename parser)))
  /\ (forall l raw,
        fst (parseAsKeyValuePair (Literal l raw) parser valueExpressions)
        = Return (raw, None))
  /\ (forall l es,
        2 < length es ->
        fst (parseAsKeyValuePair (SequenceExpression l es) parser valueExpressions)
        = Throw (EdgeError "Maximum of 2 arguments are allowed for slot tag"
                   "E_MAX_ARGUMENTS" (line l) (column l) (filename parser)))
  /\ (forall l first rest,
        length rest <= 1 ->
        type_of first <> "Literal" ->
        fst (parseAsKeyValuePair (SequenceExpression l (first :: rest))
               parser valueExpressions)
        = Throw (EdgeError (type_of first +:+ " is not allowed for slot tag.")
                   "E_UNALLOWED_EXPRESSION"
                   (line (loc_of first)) (column (loc_of first)) (filename parser)))
  /\ (forall l l1 raw second,
        valueExpressions <> [] ->
        ~ In (type_of second) valueExpressions ->
        fst (parseAsKeyValuePair (SequenceExpression l [Literal l1 raw; second])
               parser valueExpressions)
        = Throw (EdgeError (type_of second +:+ " is not allowed for slot tag.")
                   "E_UNALLOWED_EXPRESSION"
                   (line (loc_of second)) (column (loc_of second)) (filename parser)))
  /\ (forall l l1 raw second,
        valueExpressions = [] \/ In (type_of second) valueExpressions ->
        fst (parseAsKeyValuePair (SequenceExpression l [Literal l1 raw; second])
               parser valueExpressions)
        = Return (raw, Some (statementToString parser second))).
Proof.
  split_and!.
  - intros e H1 H2. run_pair.
    rewrite allowExpressions_unallowed; [done|].
    intros [H|[H|[]]]; by symmetry in H.
  - intros l raw. by run_pair.
  - intros l es H. run_pair.
    destruct es as [|a [|b [|c es]]]; cbn [length] in H; try lia. done.
  - intros l first rest Hrest H. run_pair.
    destruct rest as [|second [|third rest]]; cbn [length] in *; try lia;
      (rewrite allowExpressions_unallowed; [done|]);
      intros [H'|[]]; by symmetry in H'.
  - intros l l1 raw second Hne H. run_pair.
    destruct valueExpressions as [|v vs]; [done|].
    cbn [length Nat.eqb negb]. by rewrite allowExpressions_unallowed.
  - intros l l1 raw second H. run_pair.
    destruct valueExpressions as [|v vs]; [done|].
    cbn [length Nat.eqb negb].
    destruct H as [H|H]; [done|]. by rewrite allowExpressions_allowed.
Qed.

Lemma parseAsKeyValuePair_spec_witness :
  fst (parseAsKeyValuePair
         (SequenceExpression {| line := 3; column := 6 |}
            [Literal {| line := 3; column := 7 |} "'header'";
             Identifier {| line := 3; column := 17 |} "props";
             Identifier {| line := 3; column := 24 |} "extra"])
         sample_parser ["Identifier"])
  = Throw (EdgeError "Maximum of 2 arguments are allowed for slot tag"
             "E_MAX_ARGUMENTS" 3 6 "welcome.edge").
Proof.
  apply (proj1 (proj2 (proj2 (parseAsKeyValuePair_spec sample_parser ["Identifier"])))).
  simpl. lia.
Defined.

(** ** The expression after a call *)

(** C8, as the code has it: [parseAsKeyValuePair] leaves the expression as
    it found it, and so does [parseSequenceExpression] on anything but a
    sequence; on a sequence [parseSequenceExpression] takes the first
    element out of the element list, which afterwards holds the remaining
    elements, themselves unchanged and in the same order. *)
Theorem normalisers_effect (parser : Parser) :
  (forall e valueExpressions,
      snd (parseAsKeyValuePair e parser valueExpressions) = e)
  /\ (forall e,
        snd (parseSequenceExpression e parser)
        = match e with
          | SequenceExpression l (first :: rest) => SequenceExpression l rest
          | _ => e
          end).
Proof.
  split.
  - intros e valueExpressions.
    unfold parseAsKeyValuePair, parseAsKeyValuePairM.
    cbv [mbind M_bind mret M_ret get lift throw].
    destruct (allowExpressions _ _ _ _); [|done].
    destruct e as [| |l es| | |]; try done.
    cbn [expressions_of].
    destruct (2 <? length es)%nat; [done|].
    destruct (allowExpressions _ _ _ _); [|done].
    destruct (negb _); [destruct (allowExpressions _ _ _ _); [|done]|];
      (destruct (es !! 0%nat) as [[]|]; try done;
       by destruct (render _ _)).
  - intros e. unfold parseSequenceExpression, parseSequenceExpressionM.
    cbv [mbind M_bind mret M_ret get shift lift render].
    destruct e as [| |l [|first rest]| | |t]; try done.
    by destruct t.
Qed.

(** The claim C8 as written fails: after [parseSequenceExpression] the
    sequence no longer holds its first element. *)
Lemma normalisers_stateless_counterexample :
  let expression :=
    SequenceExpression {| line := 1; column := 11 |}
      [Literal {| line := 1; column := 12 |} "'card'";
       AssignmentExpression {| line := 1; column := 20 |}
         (Identifier {| line := 1; column := 20 |} "title")
         (Literal {| line := 1; column := 28 |} "'hi'")] in
  snd (parseSequenceExpression expression sample_parser) <> expression
  /\ expressions_of (snd (parseSequenceExpression expression sample_parser))
     = [AssignmentExpression {| line := 1; column := 20 |}
          (Identifier {| line := 1; column := 20 |} "title")
          (Literal {| line := 1; column := 28 |} "'hi'")].
Proof. split; [discriminate|reflexivity]. Qed.

(** ** Section merger *)

Section Merger.

Implicit Types (sections : gmap string Token) (node : Token) (id : string).

Local Abbreviation file := (fun sections node => <[section_id node := node]> sections).

Lemma with_children_block node children name :
  isBlock (with_children node children) name = isBlock node name.
Proof. by destruct node. Qed.

Lemma with_children_id node children :
  section_id (with_children node children) = section_id node.
Proof. by destruct node. Qed.

Lemma is_section_named_false id node :
  is_section_named id node = false <->
  (isBlock node "section" = true -> section_id node <> id).
Proof.
  unfold is_section_named. destruct (isBlock node "section"); cbn [andb].
  - rewrite String.eqb_neq. tauto.
  - split; [intros _ [=]|done].
Qed.

Lemma is_section_named_true id node :
  is_section_named id node = true <->
  isBlock node "section" = true /\ section_id node = id.
Proof. unfold is_section_named. by rewrite andb_true_iff, String.eqb_eq. Qed.

(** *** The dictionary of extended sections *)

Lemma file_other (nodes : list Token) : forall sections id,
  (forall n, In n nodes -> section_id n <> id) ->
  fold_left file nodes sections !! id = sections !! id.
Proof.
  induction nodes as [|n nodes IH]; intros sections id H; [done|].
  cbn [fold_left]. rewrite IH by (intros; apply H; by right).
  apply lookup_insert_ne, H. by left.
Qed.

Lemma file_sections (nodes : list Token) : forall sections,
  Forall (fun n => isBlock n "section" = true) nodes ->
  files_sections sections ->
  files_sections (fold_left file nodes sections).
Proof.
  induction nodes as [|n nodes IH]; intros sections Hall Hs; [done|].
  inversion_clear Hall as [|? ? Hn Hnodes]. cbn [fold_left].
  apply IH; [done|]. intros id node.
  destruct (decide (section_id n = id)) as [<-|Hne].
  - rewrite lookup_insert_eq. by intros [= <-].
  - rewrite lookup_insert_ne by done. apply Hs.
Qed.

Lemma extendedSections_files (extended : list Token) :
  files_sections (extendedSections extended).
Proof.
  apply file_sections; [|by intros ? ?; rewrite lookup_empty].
  apply List.Forall_forall. by intros n [_ H]%filter_In.
Qed.

(** The section declared last under an identifier is the one on file. *)
Lemma extendedSections_last (earlier later : list Token) node :
  isBlock node "section" = true ->
  (forall n, In n later -> is_section_named (section_id node) n = false) ->
  extendedSections (earlier ++ node :: later) !! section_id node = Some node.
Proof.
  intros Hnode Hlater. unfold extendedSections.
  rewrite List.filter_app. cbn [List.filter]. rewrite Hnode.
  rewrite fold_left_app. cbn [fold_left].
  rewrite file_other; [apply lookup_insert_eq|].
  intros n [Hn Hsec]%filter_In. specialize (Hlater n Hn).
  apply is_section_named_false in Hlater; done.
Qed.

Lemma extendedSections_none (extended : list Token) id :
  (forall n, In n extended -> is_section_named id n = false) ->
  extendedSections extended !! id = None.
Proof.
  intros H. unfold extendedSections. rewrite file_other; [apply lookup_empty|].
  intros n [Hn Hsec]%filter_In. specialize (H n Hn).
  apply is_section_named_false in H; done.
Qed.

(** *** Reading the dictionary *)

Lemma get_section_Some sections id (e : Token) :
  sections !! id = Some e -> get_section sections id = Filed e.
Proof. unfold get_section. by intros ->. Qed.

Lemma get_section_filed sections id (e : Token) :
  get_section sections id = Filed e -> sections !! id = Some e.
Proof.
  unfold get_section. destruct (sections !! id); [by intros [= ->]|].
  by destruct (inherits sections id).
Qed.

Lemma get_section_None sections id :
  get_section sections id <> Inherited -> sections !! id = None ->
  get_section sections id = Undefined.
Proof.
  unfold get_section. intros H E. rewrite E in *.
  destruct (inherits sections id); [by destruct H|done].
Qed.

(** What is inherited depends on the keys on file only. *)
Lemma get_section_keys sections sections' id :
  (forall k, is_Some (sections' !! k) <-> is_Some (sections !! k)) ->
  (get_section sections' id = Inherited <-> get_section sections id = Inherited)
  /\ (get_section sections' id = Undefined <-> get_section sections id = Undefined).
Proof.
  intros Hkeys.
  assert (forall k, sections' !! k = None <-> sections !! k = None) as Hnone.
  { intros k. by rewrite !eq_None_not_Some, Hkeys. }
  unfold get_section, inherits.
  destruct (sections !! id) as [e|] eqn:E.
  - destruct (sections' !! id) as [e'|] eqn:E'; [done|].
    apply Hnone in E'. congruence.
  - apply Hnone in E as ->.
    destruct (sections !! "__proto__") as [n|] eqn:P.
    + destruct (sections' !! "__proto__") as [n'|] eqn:P'; [done|].
      apply Hnone in P'. congruence.
    + by apply Hnone in P as ->.
Qed.

(** *** One step of the walk over the base list *)

Lemma replace_section_own sections node :
  isBlock node "section" = false
  \/ get_section sections (section_id node) = Undefined ->
  replace_section sections node = (sections, Return (Own node)).
Proof.
  unfold replace_section. intros [->| ->]; [done|].
  by destruct (negb _).
Qed.

Lemma replace_section_plain sections node extendedNode :
  isBlock node "section" = true ->
  sections !! section_id node = Some extendedNode ->
  hasChildSuper extendedNode = false ->
  replace_section sections node = (sections, Return (Shared (section_id node))).
Proof.
  unfold replace_section. intros -> H%get_section_Some Hsuper.
  cbn [negb]. by rewrite H, Hsuper.
Qed.

Lemma replace_section_super sections node extendedNode :
  isBlock node "section" = true ->
  sections !! section_id node = Some extendedNode ->
  hasChildSuper extendedNode = true ->
  replace_section sections node
  = (<[section_id node :=
         with_children extendedNode (children_of node ++ children_of extendedNode)]>
       sections,
     Return (Shared (section_id node))).
Proof.
  unfold replace_section. intros -> H%get_section_Some Hsuper.
  cbn [negb]. by rewrite H, Hsuper.
Qed.

Lemma replace_section_throws sections node :
  isBlock node "section" = true ->
  get_section sections (section_id node) = Inherited ->
  replace_section sections node = (sections, Throw TypeError).
Proof. unfold replace_section. by intros -> ->. Qed.

(** The four ways a step can go. *)
Lemma replace_section_cases sections node :
  (replace_section sections node = (sections, Return (Own node))
   /\ (isBlock node "section" = false
       \/ get_section sections (section_id node) = Undefined))
  \/ (replace_section sections node = (sections, Throw TypeError)
      /\ isBlock node "section" = true
      /\ get_section sections (section_id node) = Inherited)
  \/ (exists e,
        replace_section sections node = (sections, Return (Shared (section_id node)))
        /\ isBlock node "section" = true
        /\ sections !! section_id node = Some e
        /\ hasChildSuper e = false)
  \/ (exists e,
        replace_section sections node
        = (<[section_id node :=
               with_children e (children_of node ++ children_of e)]> sections,
           Return (Shared (section_id node)))
        /\ isBlock node "section" = true
        /\ sections !! section_id node = Some e
        /\ hasChildSuper e = true).
Proof.
  destruct (isBlock node "section") eqn:Hsec.
  - destruct (get_section sections (section_id node)) as [e| |] eqn:Hget.
    + apply get_section_filed in Hget. destruct (hasChildSuper e) eqn:Hsuper.
      * do 3 right. exists e. by rewrite (replace_section_super _ _ e).
      * do 2 right. left. exists e. by rewrite (replace_section_plain _ _ e).
    + right. left. by rewrite replace_section_throws.
    + left. rewrite replace_section_own by auto. auto.
  - left. rewrite replace_section_own by auto. auto.
Qed.

(** A step writes at most the entry of the section it visits. *)
Lemma replace_section_other sections node id :
  is_section_named id node = false ->
  (replace_section sections node).1 !! id = sections !! id.
Proof.
  intros H. pose proof (proj1 (is_section_named_false _ _) H) as Hne.
  destruct (replace_section_cases sections node)
    as [[-> _]|[[-> _]|[(e & -> & _)|(e & -> & Hsec & _)]]]; try done.
  cbn [fst]. apply lookup_insert_ne. by apply Hne.
Qed.

(** A step neither adds nor removes entries. *)
Lemma replace_section_dom sections node id :
  is_Some ((replace_section sections node).1 !! id) <-> is_Some (sections !! id).
Proof.
  destruct (replace_section_cases sections node)
    as [[-> _]|[[-> _]|[(e & -> & _)|(e & -> & _ & He & _)]]]; try done.
  cbn [fst]. destruct (decide (section_id node = id)) as [<-|Hne].
  - rewrite lookup_insert_eq, He. split; eauto.
  - by rewrite lookup_insert_ne.
Qed.

Lemma replace_section_files sections node :
  files_sections sections -> files_sections (replace_section sections node).1.
Proof.
  intros Hs.
  destruct (replace_section_cases sections node)
    as [[-> _]|[[-> _]|[(e & -> & _)|(e & -> & _ & He & _)]]]; try done.
  cbn [fst]. intros id n.
  destruct (decide (section_id node = id)) as [<-|Hne].
  - rewrite lookup_insert_eq. intros [= <-].
    rewrite with_children_block, with_children_id. by apply Hs.
  - rewrite lookup_insert_ne by done. apply Hs.
Qed.

Lemma replace_section_slot sections node slot :
  (replace_section sections node).2 = Return slot ->
  slot_from [node] (replace_section sections node).1 slot.
Proof.
  assert (In node [node]) by by left.
  destruct (replace_section_cases sections node)
    as [[-> _]|[[-> _]|[(e & -> & Hsec & He & _)|(e & -> & Hsec & He & _)]]];
    cbn [fst snd]; try done; intros [= <-]; cbn [slot_from]; [done| |].
  - rewrite He. eauto 10.
  - rewrite lookup_insert_eq. eauto 10.
Qed.

(** *** The walk *)

Lemma map_base_cons sections node (rest : list Token) :
  map_base sections (node :: rest)
  = match (replace_section sections node).2 with
    | Return slot =>
        ((map_base (replace_section sections node).1 rest).1,
         push slot (map_base (replace_section sections node).1 rest).2)
    | Throw e => ((replace_section sections node).1, Throw e)
    end.
Proof.
  cbn [map_base]. destruct (replace_section sections node) as [s1 [slot|e]];
    cbn [fst snd]; [|done]. by destruct (map_base s1 rest).
Qed.

Lemma push_Return slot (rest : Completion (list Slot)) (slots : list Slot) :
  push slot rest = Return slots ->
  exists slots', rest = Return slots' /\ slots = slot :: slots'.
Proof. destruct rest as [slots'|e]; [|done]. intros [= <-]. eauto. Qed.

(** A walk that returns went through every step. *)
Lemma map_base_Return sections node (rest : list Token) (slots : list Slot) :
  (map_base sections (node :: rest)).2 = Return slots ->
  exists slot slots',
    (replace_section sections node).2 = Return slot
    /\ (map_base (replace_section sections node).1 rest).2 = Return slots'
    /\ (map_base sections (node :: rest)).1
       = (map_base (replace_section sections node).1 rest).1
    /\ slots = slot :: slots'.
Proof.
  rewrite map_base_cons.
  destruct (replace_section sections node).2 as [slot|e]; [|done]. cbn [fst snd].
  intros (slots' & ? & ?)%push_Return. eauto 10.
Qed.

Lemma map_base_length (base : list Token) : forall sections (slots : list Slot),
  (map_base sections base).2 = Return slots -> length slots = length base.
Proof.
  induction base as [|node base IH]; intros sections slots; [by intros [= <-]|].
  intros (slot & slots' & _ & Hrest & _ & ->)%map_base_Return.
  cbn [length]. f_equal. by eapply IH.
Qed.

Lemma map_base_other (base : list Token) id : forall sections,
  (forall n, In n base -> is_section_named id n = false) ->
  (map_base sections base).1 !! id = sections !! id.
Proof.
  induction base as [|node base IH]; intros sections H; [done|].
  rewrite map_base_cons.
  pose proof (replace_section_other sections node id (H node (or_introl eq_refl))) as H1.
  destruct (replace_section sections node).2; cbn [fst]; [|done].
  rewrite IH by (intros; apply H; by right). done.
Qed.

Lemma map_base_dom (base : list Token) id : forall sections,
  is_Some ((map_base sections base).1 !! id) <-> is_Some (sections !! id).
Proof.
  induction base as [|node base IH]; intros sections; [done|].
  rewrite map_base_cons.
  destruct (replace_section sections node).2; cbn [fst];
    by rewrite ?IH, replace_section_dom.
Qed.

Lemma map_base_files (base : list Token) : forall sections,
  files_sections sections -> files_sections (map_base sections base).1.
Proof.
  induction base as [|node base IH]; intros sections H; [done|].
  rewrite map_base_cons.
  destruct (replace_section sections node).2; cbn [fst];
    [by apply IH, replace_section_files|by apply replace_section_files].
Qed.

Lemma slot_from_mono (base base' : list Token) sections sections' slot :
  (forall n, In n base -> In n base') ->
  (forall id, is_Some (sections !! id) -> is_Some (sections' !! id)) ->
  slot_from base sections slot -> slot_from base' sections' slot.
Proof.
  intros Hb Hs. destruct slot as [node|id]; cbn [slot_from]; [by apply Hb|].
  intros [H (b & ? & ? & ?)]. split; [by apply Hs|]. exists b. auto.
Qed.

(** Every slot of the walk is a base token or names an entry of the final
    store that a section of the base list asked for. *)
Lemma map_base_slots (base : list Token) : forall sections (slots : list Slot),
  (map_base sections base).2 = Return slots ->
  Forall (slot_from base (map_base sections base).1) slots.
Proof.
  induction base as [|node base IH]; intros sections slots;
    [intros [= <-]; by constructor|].
  intros Hwalk.
  destruct (map_base_Return _ _ _ _ Hwalk) as (slot & slots' & Hslot & Hrest & -> & ->).
  constructor.
  - eapply slot_from_mono; [| |by apply replace_section_slot].
    + intros n [<-|[]]. by left.
    + intros id. by rewrite map_base_dom.
  - eapply Forall_impl; [by apply IH|]. intros s.
    apply slot_from_mono; [|done]. intros n ?. by right.
Qed.

(** Tokens that meet no extended section stay in their slot. *)
Lemma map_base_own (base : list Token) :
  forall sections (slots : list Slot) (i : nat) node,
    (map_base sections base).2 = Return slots ->
    base !! i = Some node ->
    isBlock node "section" = false \/ sections !! section_id node = None ->
    slots !! i = Some (Own node).
Proof.
  induction base as [|b base IH]; intros sections slots i node Hwalk Hi H; [done|].
  destruct (map_base_Return _ _ _ _ Hwalk) as (slot & slots' & Hslot & Hrest & _ & ->).
  destruct i as [|i].
  - injection Hi as ->. cbn [lookup list_lookup]. f_equal.
    destruct (replace_section_cases sections node)
      as [[R _]|[[R _]|[(e & R & Hsec & He & _)|(e & R & Hsec & He & _)]]];
      rewrite R in Hslot; cbn [snd] in Hslot; try done;
      try (by injection Hslot as <-);
      destruct H as [H|H]; congruence.
  - apply (IH _ _ _ _ Hrest Hi). destruct H as [H|H]; [by left|right].
    apply eq_None_not_Some. rewrite replace_section_dom.
    by apply eq_None_not_Some.
Qed.

(** A base section with an entry on file gets a reference to that entry. *)
Lemma map_base_shared (base : list Token) :
  forall sections (slots : list Slot) (i : nat) node,
    (map_base sections base).2 = Return slots ->
    base !! i = Some node ->
    isBlock node "section" = true ->
    is_Some (sections !! section_id node) ->
    slots !! i = Some (Shared (section_id node)).
Proof.
  induction base as [|b base IH]; intros sections slots i node Hwalk Hi Hsec Hfile;
    [done|].
  destruct (map_base_Return _ _ _ _ Hwalk) as (slot & slots' & Hslot & Hrest & _ & ->).
  destruct i as [|i].
  - injection Hi as ->. cbn [lookup list_lookup]. f_equal.
    destruct Hfile as [e He].
    destruct (hasChildSuper e) eqn:S.
    + rewrite (replace_section_super _ _ _ Hsec He S) in Hslot.
      by injection Hslot as <-.
    + rewrite (replace_section_plain _ _ _ Hsec He S) in Hslot.
      by injection Hslot as <-.
  - apply (IH _ _ _ _ Hrest Hi Hsec). by apply replace_section_dom.
Qed.

Lemma no_inherited_step sections node (base : list Token) :
  no_inherited sections (node :: base) ->
  no_inherited (replace_section sections node).1 base.
Proof.
  intros H b Hb Hsec.
  destruct (get_section_keys sections (replace_section sections node).1 (section_id b))
    as [Hinh _]; [intros k; apply replace_section_dom|].
  rewrite Hinh. apply H; [by right|done].
Qed.

(** The walk returns when no section asks for an inherited member... *)
Lemma map_base_returns (base : list Token) : forall sections,
  no_inherited sections base ->
  exists slots, (map_base sections base).2 = Return slots.
Proof.
  induction base as [|node base IH]; intros sections H; [by exists []|].
  rewrite map_base_cons.
  destruct (IH _ (no_inherited_step _ _ _ H)) as [slots Hslots].
  destruct (replace_section_cases sections node)
    as [[R _]|[[R [Hsec Hget]]|[(e & R & _)|(e & R & _)]]];
    rewrite R in *; cbn [fst snd] in *; try (rewrite Hslots; by eauto).
  exfalso. by apply (H node); [left| |].
Qed.

(** ... and throws a type error, and nothing else, when one does. *)
Lemma map_base_throws (base : list Token) : forall sections b,
  In b base -> isBlock b "section" = true ->
  get_section sections (section_id b) = Inherited ->
  (map_base sections base).2 = Throw TypeError.
Proof.
  induction base as [|node base IH]; intros sections b Hb Hsec Hget; [done|].
  rewrite map_base_cons.
  destruct (replace_section sections node).2 as [slot|e] eqn:Hstep.
  - destruct Hb as [->|Hb].
    + rewrite (replace_section_throws _ _ Hsec Hget) in Hstep. done.
    + cbn [snd]. rewrite (IH _ b Hb Hsec); [done|].
      by apply (get_section_keys sections), Hget; intros k; apply replace_section_dom.
  - cbn [snd]. f_equal.
    destruct (replace_section_cases sections node)
      as [[R _]|[[R _]|[(e' & R & _)|(e' & R & _)]]];
      rewrite R in Hstep; cbn [snd] in Hstep; congruence.
Qed.

Lemma map_base_app (l1 l2 : list Token) : forall sections (slots : list Slot),
  (map_base sections l1).2 = Return slots ->
  map_base sections (l1 ++ l2)
  = ((map_base (map_base sections l1).1 l2).1,
     match (map_base (map_base sections l1).1 l2).2 with
     | Return slots' => Return (slots ++ slots')
     | Throw e => Throw e
     end).
Proof.
  induction l1 as [|node l1 IH]; intros sections slots.
  - intros [= <-]. cbn [app map_base fst snd].
    by destruct (map_base sections l2) as [? [?|?]].
  - intros Hwalk.
    destruct (map_base_Return _ _ _ _ Hwalk)
      as (slot & slots' & Hslot & Hrest & Hstore & ->).
    rewrite Hstore, <- app_comm_cons, map_base_cons, Hslot, (IH _ _ Hrest).
    cbn [fst snd]. by destruct (map_base _ l2).2.
Qed.

Lemma map_base_untouched (base : list Token) sections :
  (forall node, In node base ->
     isBlock node "section" = false
     \/ get_section sections (section_id node) = Undefined) ->
  map_base sections base = (sections, Return (map Own base)).
Proof.
  induction base as [|b base IH]; intros H; [done|].
  rewrite map_base_cons, replace_section_own by (apply H; by left).
  cbn [fst snd]. rewrite IH by (intros; apply H; by right). done.
Qed.

Lemma read_own sections (base : list Token) : map (read sections) (map Own base) = base.
Proof. induction base as [|b base IH]; [done|]. cbn [map read]. by rewrite IH. Qed.

Lemma mergeSections_unfold (base extended : list Token) :
  mergeSections base extended
  = match (map_base (extendedSections extended) base).2 with
    | Return slots =>
        Return (extendedSetCalls extended
                  ++ map (read (map_base (extendedSections extended) base).1) slots)
    | Throw e => Throw e
    end.
Proof.
  unfold mergeSections.
  by destruct (map_base (extendedSections extended) base) as [? [?|?]].
Qed.

Lemma mergeSections_Return (base extended result : list Token) :
  mergeSections base extended = Return result ->
  exists slots,
    (map_base (extendedSections extended) base).2 = Return slots
    /\ result = extendedSetCalls extended
                  ++ map (read (map_base (extendedSections extended) base).1) slots.
Proof.
  rewrite mergeSections_unfold.
  destruct (map_base (extendedSections extended) base).2 as [slots|e]; [|done].
  intros [= <-]. eauto.
Qed.

(** When no section on file starts with a [super] tag the store is never
    written, and each section of the base list is replaced by the section
    on file under its identifier, if there is one. *)
Lemma map_base_plain (base : list Token) sections :
  (forall id e, sections !! id = Some e -> hasChildSuper e = false) ->
  no_inherited sections base ->
  map_base sections base
  = (sections,
     Return (map (fun node =>
                    if isBlock node "section"
                    then match sections !! section_id node with
                         | Some _ => Shared (section_id node)
                         | None => Own node
                         end
                    else Own node) base)).
Proof.
  intros Hplain. induction base as [|b base IH]; intros Hsafe; [done|].
  rewrite map_base_cons.
  assert (replace_section sections b
          = (sections,
             Return (if isBlock b "section"
                     then match sections !! section_id b with
                          | Some _ => Shared (section_id b)
                          | None => Own b
                          end
                     else Own b))) as Hstep.
  { destruct (isBlock b "section") eqn:B; [|by apply replace_section_own; left].
    destruct (sections !! section_id b) as [e|] eqn:E.
    - eapply replace_section_plain; eauto.
    - apply replace_section_own. right. apply get_section_None; [|done].
      apply Hsafe; [by left|done]. }
  rewrite Hstep. cbn [fst snd].
  rewrite IH; [done|]. intros n Hn. apply Hsafe. by right.
Qed.

End Merger.

(** C4: when the extended list declares several sections under one
    identifier, the one declared last is the one on file, whatever was
    declared before it; the merge goes through and puts that section in
    place of the base section of that identifier. *)
Theorem extendedSections_last_wins (earlier later : list Token) (node : Token) :
  isBlock node "section" = true ->
  (forall n, In n later -> is_section_named (section_id node) n = false) ->
  extendedSections (earlier ++ node :: later) !! section_id node = Some node
  /\ (forall b,
        is_section_named (section_id node) b = true ->
        hasChildSuper node = false ->
        mergeSections [b] (earlier ++ node :: later)
        = Return (extendedSetCalls (earlier ++ node :: later) ++ [node])).
Proof.
  intros Hnode Hlater.
  pose proof (extendedSections_last earlier later node Hnode Hlater) as Hlast.
  split; [done|]. intros b [Hb Hid]%is_section_named_true Hplain.
  rewrite mergeSections_unfold, map_base_cons.
  rewrite <- Hid in Hlast.
  rewrite (replace_section_plain _ _ _ Hb Hlast Hplain).
  cbn [fst snd map_base push map read]. by rewrite Hlast.
Qed.

Lemma extendedSections_last_wins_witness :
  extendedSections
    ([tag "section" "'content'" [text "first"]]
       ++ tag "section" " 'content'" [text "second"] :: [text "tail"])
    !! "'content'"
  = Some (tag "section" " 'content'" [text "second"]).
Proof.
  apply (extendedSections_last_wins
           [tag "section" "'content'" [text "first"]] [text "tail"]
           (tag "section" " 'content'" [text "second"])).
  - reflexivity.
  - intros n [<-|[]]. reflexivity.
Defined.

(** C3: the claim gives, for every call, the [set] tags of the extended
    list followed by the processed base tokens, and the base list behind
    those tags when the extended list overrides no section.  The code
    breaks it on a base section that goes by the name of a member every
    object inherits: the dictionary, an object literal, answers for
    [constructor] with the inherited function, the test for a missing
    section lets it through, and [hasChildSuper] throws.  Here the extended
    list is empty and the call returns no list at all. *)
Theorem mergeSections_hoists_failing :
  let base := [text "<main>";
               tag "section" "constructor" [text "layout content"];
               text "</main>"] in
  List.filter (fun node => isBlock node "section") ([] : list Token) = []
  /\ get_section (extendedSections []) "constructor" = Inherited
  /\ mergeSections base [] = Throw TypeError
  /\ mergeSections base [] <> Return (extendedSetCalls [] ++ base).
Proof. by split_and!. Qed.

(** C2: the claim keeps the base section [B] unchanged when the extended
    list overrides [A] only.  The code breaks it when [B] goes by the name
    of a member every object inherits, here [valueOf]: the lookup of the
    section the extended list did not declare finds the inherited function
    and [hasChildSuper] throws, where the claim has the merged list with
    the extended [A] and the base [B]. *)
Theorem mergeSections_overrides_failing :
  let baseB := tag "section" "valueOf" [text "layout sidebar"] in
  let base := [tag "section" "'content'" [text "layout content"]; baseB] in
  let extendedA := tag "section" "'content'" [text "child content"] in
  let extended := [tag "set" "'title', 'Home'" []; extendedA] in
  List.filter (fun node => isBlock node "section") extended = [extendedA]
  /\ hasChildSuper extendedA = false
  /\ get_section (extendedSections extended) (section_id baseB) = Inherited
  /\ mergeSections base extended = Throw TypeError
  /\ mergeSections base extended
     <> Return (extendedSetCalls extended ++ [extendedA; baseB]).
Proof. by split_and!. Qed.

(** C1, as the code has it: when the base list has one section [A], and the
    section [A] declared last in the extended list starts with a [super]
    tag, the merged list has, in the place of the base section, the
    extended section with the children of the base section followed by all
    the children of the extended section; the [super] tag is kept, right
    after the base children.  This is for base lists whose other sections
    ask the dictionary for nothing it only inherits. *)
Theorem mergeSections_super (before after earlier later : list Token)
    (baseA extendedA : Token) :
  isBlock baseA "section" = true ->
  isBlock extendedA "section" = true ->
  section_id baseA = section_id extendedA ->
  hasChildSuper extendedA = true ->
  (forall n, In n later -> is_section_named (section_id extendedA) n = false) ->
  (forall n, In n before \/ In n after ->
     is_section_named (section_id extendedA) n = false) ->
  no_inherited (extendedSections (earlier ++ extendedA :: later)) (before ++ after) ->
  exists result,
    mergeSections (before ++ baseA :: after) (earlier ++ extendedA :: later)
    = Return result
    /\ result !! (length (extendedSetCalls (earlier ++ extendedA :: later))
                    + length before)%nat
       = Some (with_children extendedA (children_of baseA ++ children_of extendedA)).
Proof.
  intros HbaseA HextA Hid Hsuper Hlater Hbase Hsafe.
  pose proof (extendedSections_last earlier later _ HextA Hlater) as Hfile.
  set (extended := earlier ++ extendedA :: later) in *.
  assert (no_inherited (extendedSections extended) (before ++ baseA :: after))
    as Hall.
  { intros b Hb Hsec. apply in_app_or in Hb as [Hb|[<-|Hb]].
    - apply Hsafe; [apply in_or_app; by left|done].
    - by rewrite Hid, (get_section_Some _ _ _ Hfile).
    - apply Hsafe; [apply in_or_app; by right|done]. }
  destruct (map_base_returns _ _ Hall) as [slots Hslots].
  assert ((map_base (extendedSections extended) (before ++ baseA :: after)).1
            !! section_id baseA
          = Some (with_children extendedA (children_of baseA ++ children_of extendedA)))
    as Hstore.
  { destruct (map_base_returns before (extendedSections extended)) as [s1 Hs1].
    { intros b Hb. apply Hsafe, in_or_app. by left. }
    rewrite (map_base_app _ _ _ _ Hs1). cbn [fst]. rewrite map_base_cons.
    assert ((map_base (extendedSections extended) before).1 !! section_id baseA
            = Some extendedA) as Hseen.
    { rewrite Hid, map_base_other; [done|]. auto. }
    rewrite (replace_section_super _ _ _ HbaseA Hseen Hsuper). cbn [fst snd].
    rewrite Hid, map_base_other by auto. apply lookup_insert_eq. }
  eexists. split; [by rewrite mergeSections_unfold, Hslots|].
  rewrite lookup_app_r by lia.
  replace (_ + length before - _)%nat with (length before) by lia.
  rewrite list_lookup_fmap.
  rewrite (map_base_shared _ _ _ (length before) baseA Hslots);
    [|by apply list_lookup_middle|done|by rewrite Hid, Hfile].
  cbn [fmap option_fmap option_map read]. by rewrite Hstore.
Qed.

Lemma mergeSections_super_witness :
  exists result,
    mergeSections layout extending_child = Return result
    /\ result !! 1%nat
       = Some (tag "section" "'content'"
                 [text "layout content"; tag "super" "" []; text "child content"]).
Proof.
  apply (mergeSections_super
           [text "<main>"]
           [tag "section" "'sidebar'" [text "layout sidebar"]; text "</main>"]
           [] []
           (tag "section" "'content'" [text "layout content"])
           (tag "section" "'content'" [tag "super" "" []; text "child content"]));
    try reflexivity.
  - intros n [].
  - intros n [[<-|[]]|[<-|[<-|[]]]]; reflexivity.
  - intros b [<-|[<-|[<-|[]]]] _; vm_compute; discriminate.
Defined.

(** The claim C1 as written fails: the [super] tag is not removed from the
    merged children.  And when the base list declares the section twice,
    both places show the same node, so the children of the second base
    section are not in it. *)
Lemma mergeSections_super_counterexample :
  (let baseA := tag "section" "'content'" [text "layout content"] in
   let extendedA :=
     tag "section" "'content'" [tag "super" "" []; text "child content"] in
   hasChildSuper extendedA = true
   /\ section_id baseA = section_id extendedA
   /\ mergeSections [baseA] [extendedA]
      = Return [tag "section" "'content'"
                  [text "layout content"; tag "super" "" []; text "child content"]]
   /\ forall result merged,
        mergeSections [baseA] [extendedA] = Return result ->
        In merged result ->
        children_of merged <> children_of baseA ++ tl (children_of extendedA))
  /\ (let first := tag "section" "'content'" [text "one"] in
      let second := tag "section" "'content'" [text "two"] in
      let extendedA :=
        tag "section" "'content'" [tag "super" "" []; text "child content"] in
      forall result merged,
        mergeSections [first; second] [extendedA] = Return result ->
        In merged result ->
        children_of merged <> children_of second ++ children_of extendedA
        /\ children_of merged <> children_of second ++ tl (children_of extendedA)).
Proof.
  split.
  - split_and!; [reflexivity..|]. intros result merged [= <-] [<-|[]]. discriminate.
  - intros first second extendedA result merged [= <-] [<-|[<-|[]]];
      split; discriminate.
Qed.

(** C9: a top-level token of the extended list that is not a [set] tag,
    and not a section whose identifier is that of a section of the base
    list, does not occur in the merged list.  Tokens are compared by what
    they hold, so a token that the base list holds as well is set aside. *)
Theorem mergeSections_discards (base extended result : list Token) (token : Token) :
  mergeSections base extended = Return result ->
  In token extended ->
  isBlock token "set" = false ->
  ~ (isBlock token "section" = true
     /\ exists b, In b base /\ isBlock b "section" = true
                  /\ section_id b = section_id token) ->
  ~ In token base ->
  ~ In token result.
Proof.
  intros (slots & Hslots & ->)%mergeSections_Return _ Hset Hsection Hbase.
  intros [Hcall|Hfinal]%in_app_or.
  - apply filter_In in Hcall as [_ Hcall]. congruence.
  - apply in_map_iff in Hfinal as (slot & Hread & Hslot).
    pose proof (map_base_slots base (extendedSections extended) slots Hslots) as Hfrom.
    rewrite List.Forall_forall in Hfrom. specialize (Hfrom slot Hslot).
    destruct slot as [node|key]; cbn [read slot_from] in *.
    + by subst.
    + destruct Hfrom as [[e He] (b & Hb & Hbsec & Hbid)].
      rewrite He in Hread. cbn [default from_option] in Hread.
      unfold Datatypes.id in Hread. subst e.
      destruct (map_base_files base (extendedSections extended)
                  (extendedSections_files extended) key token He) as [Hsec Hid].
      apply Hsection. split; [done|]. exists b. by rewrite Hid.
Qed.

Lemma mergeSections_discards_witness :
  ~ In (text "dropped")
       [tag "set" "'title', 'Home'" [];
        tag "set" "'lang', 'en'" [];
        text "<main>";
        tag "section" " 'content' " [text "child content"];
        tag "section" "'sidebar'" [text "layout sidebar"];
        text "</main>"].
Proof.
  apply (mergeSections_discards layout overriding_child).
  - reflexivity.
  - left. reflexivity.
  - reflexivity.
  - intros [E _]. discriminate.
  - intros [E|[E|[E|[E|[]]]]]; discriminate.
Defined.

(** * Further properties *)

(** ** Validators *)

(** X1: the two validators are complementary.  On a list that holds the
    kind of the expression [allowExpressions] returns and
    [disAllowExpressions] throws; on a list that does not, it is the other
    way round; the error is the same [E_UNALLOWED_EXPRESSION], carrying the
    kind, the tag, the position of the expression and the file name. *)
Theorem validators_complementary (tag : string) (e : Expr)
    (expressions : list string) (file : string) :
  (In (type_of e) expressions ->
   allowExpressions tag (Some e) expressions file = Return tt
   /\ disAllowExpressions tag (Some e) expressions file
      = Throw (EdgeError (type_of e +:+ " is not allowed for " +:+ tag +:+ " tag.")
                 "E_UNALLOWED_EXPRESSION"
                 (line (loc_of e)) (column (loc_of e)) file))
  /\ (~ In (type_of e) expressions ->
      allowExpressions tag (Some e) expressions file
      = Throw (EdgeError (type_of e +:+ " is not allowed for " +:+ tag +:+ " tag.")
                 "E_UNALLOWED_EXPRESSION"
                 (line (loc_of e)) (column (loc_of e)) file)
      /\ disAllowExpressions tag (Some e) expressions file = Return tt).
Proof.
  split.
  - intros [i H]%indexOf_Some. unfold allowExpressions, disAllowExpressions.
    by rewrite H.
  - intros H%indexOf_None. unfold allowExpressions, disAllowExpressions.
    by rewrite H.
Qed.

Lemma validators_complementary_witness :
  allowExpressions "include" (Some (Identifier {| line := 2; column := 9 |} "user"))
    ["Literal"; "Identifier"] "welcome.edge" = Return tt
  /\ disAllowExpressions "include"
       (Some (Identifier {| line := 2; column := 9 |} "user"))
       ["Literal"; "Identifier"] "welcome.edge"
     = Throw (EdgeError "Identifier is not allowed for include tag."
                "E_UNALLOWED_EXPRESSION" 2 9 "welcome.edge").
Proof.
  apply (proj1 (validators_complementary "include"
                  (Identifier {| line := 2; column := 9 |} "user")
                  ["Literal"; "Identifier"] "welcome.edge")).
  right. left. reflexivity.
Defined.

(** ** The object-literal builder *)

Lemma holds_add_all (pairs : list (string * string)) : forall o acc,
  holds o acc -> holds (add_all pairs o) (acc ++ pairs).
Proof.
  induction pairs as [|[key value] pairs IH]; intros o acc H.
  - by rewrite app_nil_r.
  - unfold add_all. cbn [fold_left fst snd].
    rewrite cons_middle, app_assoc. apply IH.
    by apply (holds_add o acc (Some key) value).
Qed.

(** X2: pairs added to a fresh builder are flushed as one literal, in the
    order they were added, separated by commas and wrapped in braces; the
    flush empties the builder, so that what is added next is flushed on its
    own. *)
Theorem ObjectifyString_flush (pairs more : list (string * string)) :
  fst (ObjectifyString.flush (add_all pairs ObjectifyString.new))
  = props_literal pairs
  /\ fst (ObjectifyString.flush
            (add_all more
               (snd (ObjectifyString.flush (add_all pairs ObjectifyString.new)))))
     = props_literal more.
Proof.
  assert (forall ps, fst (ObjectifyString.flush (add_all ps ObjectifyString.new))
                     = props_literal ps) as Hflush.
  { intros ps. unfold ObjectifyString.flush, props_literal. cbn [fst].
    by rewrite (holds_add_all ps ObjectifyString.new []). }
  split; [apply Hflush|]. cbn [ObjectifyString.flush snd]. apply Hflush.
Qed.

(** ** Normalisers *)

Lemma parseSequenceExpression_leaves parser l (first : Expr) (rest : list Expr) :
  snd (parseSequenceExpression (SequenceExpression l (first :: rest)) parser)
  = SequenceExpression l rest.
Proof. reflexivity. Qed.

(** X3: a second call of [parseSequenceExpression] on the same sequence
    object does not repeat the first: the first call has taken the name
    out of the element list, so the second call renders the element that
    used to come second as the name, and builds the props from what
    follows it. *)
Theorem parseSequenceExpression_twice parser l (first second : Expr)
    (rest : list Expr) :
  let expression := SequenceExpression l (first :: second :: rest) in
  let after := snd (parseSequenceExpression expression parser) in
  fst (parseSequenceExpression expression parser)
  = Return (statementToString parser first,
            props_literal (flat_map (contributed_pairs parser) (second :: rest)))
  /\ fst (parseSequenceExpression after parser)
     = Return (statementToString parser second,
               props_literal (flat_map (contributed_pairs parser) rest))
  /\ snd (parseSequenceExpression after parser) = SequenceExpression l rest.
Proof.
  cbv zeta. rewrite parseSequenceExpression_leaves.
  rewrite !parseSequenceExpression_sequence.
  by rewrite parseSequenceExpression_leaves.
Qed.

Lemma indexOf_In (x : string) (expressions : list string) (i : nat) :
  indexOf x expressions = Some i -> In x expressions.
Proof.
  revert i. induction expressions as [|y rest IH]; intros i; cbn [indexOf In]; [done|].
  destruct (String.eqb_spec y x) as [->|Hne]; [by left|].
  destruct (indexOf x rest) as [j|]; [|done]. intros _. right. by apply (IH j).
Qed.

Lemma allowExpressions_returns tag (v : option Expr) expressions file :
  allowExpressions tag v expressions file = Return tt ->
  exists e, v = Some e /\ In (type_of e) expressions.
Proof.
  unfold allowExpressions. destruct v as [e|]; [|done].
  destruct (indexOf (type_of e) expressions) as [i|] eqn:E; [|done].
  intros _. exists e. split; [done|]. by apply (indexOf_In _ _ i).
Qed.

Lemma only_literal (e : Expr) :
  In (type_of e) ["Literal"] -> exists l raw, e = Literal l raw.
Proof.
  intros [H|[]]. destruct e as [l raw| | | | |t ?]; try done; [by eauto|].
  by destruct t.
Qed.

Lemma literal_or_sequence (e : Expr) :
  In (type_of e) ["Literal"; "SequenceExpression"] ->
  (exists l raw, e = Literal l raw) \/ (exists l es, e = SequenceExpression l es).
Proof.
  intros [H|[H|[]]]; destruct e as [l raw| |l es| | |t ?]; try done; eauto;
    by destruct t.
Qed.

(** X4: when [parseAsKeyValuePair] returns a pair, the expression was a
    literal, and the pair is its raw text and no value, or it was a
    sequence of at most two elements headed by a literal, and the pair is
    the raw text of that literal and a value: the second element rendered,
    of one of the given kinds when kinds are given. *)
Theorem parseAsKeyValuePair_returns (e : Expr) (parser : Parser)
    (valueExpressions : list string) (key : string) (value : option string) :
  fst (parseAsKeyValuePair e parser valueExpressions) = Return (key, value) ->
  (exists l, e = Literal l key /\ value = None)
  \/ (exists l l1 rest,
        e = SequenceExpression l (Literal l1 key :: rest)
        /\ length rest <= 1
        /\ value <> None
        /\ forall second,
             rest = [second] ->
             value = Some (statementToString parser second)
             /\ (valueExpressions = [] \/ In (type_of second) valueExpressions)).
Proof.
  unfold parseAsKeyValuePair, parseAsKeyValuePairM.
  cbv [mbind M_bind mret M_ret get lift throw].
  destruct (allowExpressions "slot" (Some e) _ _) as [[]|] eqn:Htop; [|done].
  apply allowExpressions_returns in Htop as (e' & [= <-] & Hkind).
  apply literal_or_sequence in Hkind as [(l & raw & ->)|(l & es & ->)].
  - intros [= <- <-]. left. eauto.
  - cbn [expressions_of]. destruct (2 <? length es)%nat eqn:Hlen; [done|].
    apply Nat.ltb_ge in Hlen.
    destruct (allowExpressions "slot" (es !! 0%nat) _ _) as [[]|] eqn:Hfirst; [|done].
    apply allowExpressions_returns in Hfirst as (first & Hes & Hlit).
    apply only_literal in Hlit as (l1 & raw & ->).
    destruct es as [|? rest]; [done|]. injection Hes as ->.
    cbn [lookup list_lookup length] in *.
    intros H. right. exists l, l1, rest.
    destruct (negb (length valueExpressions =? 0)%nat) eqn:Hkinds.
    + destruct (allowExpressions "slot" (rest !! 0%nat) _ _) as [[]|] eqn:Hsecond;
        [|done].
      apply allowExpressions_returns in Hsecond as (second & Hrest & Hin).
      rewrite Hrest in H. cbn [render] in H. injection H as <- <-.
      split_and!; [done|lia|done|].
      intros second' ->. injection Hrest as ->. auto.
    + apply negb_false_iff, Nat.eqb_eq, length_zero_iff_nil in Hkinds as ->.
      destruct (rest !! 0%nat) as [second|] eqn:Hrest; [|done].
      cbn [render] in H. injection H as <- <-.
      split_and!; [done|lia|done|].
      intros second' ->. injection Hrest as ->. auto.
Qed.

Lemma parseAsKeyValuePair_returns_witness :
  (exists l, SequenceExpression {| line := 3; column := 6 |}
               [Literal {| line := 3; column := 7 |} "'header'";
                Identifier {| line := 3; column := 17 |} "props"]
             = Literal l "'header'" /\ Some "props" = None)
  \/ (exists l l1 rest,
        SequenceExpression {| line := 3; column := 6 |}
          [Literal {| line := 3; column := 7 |} "'header'";
           Identifier {| line := 3; column := 17 |} "props"]
        = SequenceExpression l (Literal l1 "'header'" :: rest)
        /\ length rest <= 1
        /\ Some "props" <> None
        /\ forall second,
             rest = [second] ->
             Some "props" = Some (statementToString sample_parser second)
             /\ (["Identifier"] = [] \/ In (type_of second) ["Identifier"])).
Proof.
  apply (parseAsKeyValuePair_returns _ sample_parser ["Identifier"]).
  reflexivity.
Defined.

(** X5: a sequence without elements makes [parseAsKeyValuePair] fail with
    a type error, not with one of the engine's errors: the validator reads
    the kind of a first element that is not there.  So does a sequence of
    one literal when kinds are given for the value, for the second
    element. *)
Theorem parseAsKeyValuePair_missing_element (parser : Parser)
    (valueExpressions : list string) l :
  fst (parseAsKeyValuePair (SequenceExpression l []) parser valueExpressions)
  = Throw TypeError
  /\ (forall l1 raw,
        valueExpressions <> [] ->
        fst (parseAsKeyValuePair (SequenceExpression l [Literal l1 raw])
               parser valueExpressions)
        = Throw TypeError).
Proof.
  split; [done|]. intros l1 raw H. run_pair.
  by destruct valueExpressions.
Qed.

Lemma parseAsKeyValuePair_missing_element_witness :
  fst (parseAsKeyValuePair
         (SequenceExpression {| line := 3; column := 6 |}
            [Literal {| line := 3; column := 7 |} "'header'"])
         sample_parser ["Identifier"])
  = Throw TypeError.
Proof.
  apply (proj2 (parseAsKeyValuePair_missing_element sample_parser ["Identifier"]
                  {| line := 3; column := 6 |})).
  discriminate.
Defined.

(** ** Cuts and concatenation *)

Section Cuts.

Import JsString.

Lemma append_empty_r (s : string) : s +:+ "" = s.
Proof. induction s as [|c s IH]; [done|]. rewrite append_cons. by f_equal. Qed.

Lemma cut_free (sp s : string) :
  (forall before after : string, s <> before +:+ sp +:+ after) -> cut sp s = None.
Proof.
  intros H. destruct (cut sp s) as [[b a]|] eqn:C; [|done].
  apply cut_Some in C. by apply H in C.
Qed.


(** The text after a cut contains the separator only if the whole does. *)
Lemma cut_after_free (sp sp' s before after : string) :
  cut sp' s = None -> cut sp s = Some (before, after) -> cut sp' after = None.
Proof.
  intros Hnone C. apply cut_free. intros b a ->.
  apply cut_Some in C. revert C. rewrite <- !append_assoc.
  rewrite (append_assoc _ sp' a). apply (cut_None _ _ Hnone).
Qed.

Lemma starts_with_true_app (sp s t : string) :
  starts_with sp s = true ->
  starts_with sp (s +:+ t) = true
  /\ skip (String.length sp) (s +:+ t) = skip (String.length sp) s +:+ t.
Proof.
  revert s. induction sp as [|a sp IH]; intros s H; [done|].
  destruct s as [|b s]; [done|]. rewrite append_cons. cbn [starts_with] in *.
  destruct (Ascii.eqb a b); [|done]. cbn [String.length skip]. by apply IH.
Qed.

(** A separator found at the head of [s +:+ t] but not at the head of [s]
    runs over the end of [s]. *)
Lemma starts_with_straddles (sp s t : string) :
  starts_with sp (s +:+ t) = true -> starts_with sp s = false ->
  String.length s < String.length sp
  /\ starts_with (skip (String.length s) sp) t = true.
Proof.
  revert s. induction sp as [|a sp IH]; intros s Happ Hs; [done|].
  destruct s as [|b s].
  - split; [simpl; lia|done].
  - rewrite append_cons in Happ. cbn [starts_with] in *.
    destruct (Ascii.eqb a b); [|done].
    destruct (IH s Happ Hs) as [Hlen Hrest]. cbn [String.length skip].
    split; [lia|done].
Qed.

Lemma cut_app_l (sp s t before after : string) :
  cut sp s = Some (before, after) ->
  cut sp (s +:+ t) = Some (before, after +:+ t).
Proof.
  revert before after. induction s as [|c s IH]; intros before after.
  - cbn [cut]. destruct (starts_with sp "") eqn:E; [|done].
    intros [= <- <-]. destruct sp; [|done]. cbn [String.length skip].
    rewrite append_empty_l. by destruct t.
  - cbn [cut]. destruct (starts_with sp (String c s)) eqn:E.
    + intros [= <- <-]. destruct (starts_with_true_app _ _ t E) as [E' Hskip].
      rewrite append_cons in *. cbn [cut]. by rewrite E', Hskip.
    + destruct (cut sp s) as [[b a]|] eqn:C; [|done]. intros [= <- <-].
      rewrite append_cons. cbn [cut]. rewrite (IH _ _ eq_refl).
      destruct (starts_with sp (String c (s +:+ t))) eqn:E'; [|done].
      rewrite <- append_cons in E'.
      destruct (starts_with_straddles _ _ _ E' E) as [Hlen _].
      apply cut_Some in C. rewrite C in Hlen.
      cbn [String.length] in Hlen. rewrite !append_length in Hlen. lia.
Qed.

(** Appending a text that no part of the separator runs into moves the
    search for the separator to that text. *)
Lemma cut_app_r (sp s t : string) :
  cut sp s = None ->
  (forall n, 0 < n < String.length sp -> starts_with (skip n sp) t = false) ->
  cut sp (s +:+ t)
  = match cut sp t with
    | Some (before, after) => Some (s +:+ before, after)
    | None => None
    end.
Proof.
  intros Hs Ht. induction s as [|c s IH].
  - rewrite append_empty_l. by destruct (cut sp t) as [[b a]|].
  - cbn [cut] in Hs. destruct (starts_with sp (String c s)) eqn:E; [done|].
    destruct (cut sp s) as [[b a]|] eqn:C; [done|].
    rewrite append_cons. cbn [cut]. rewrite IH by done.
    destruct (starts_with sp (String c (s +:+ t))) eqn:E'.
    + rewrite <- append_cons in E'.
      destruct (starts_with_straddles _ _ _ E' E) as [Hlen Hrest].
      rewrite Ht in Hrest; [done|]. cbn [String.length] in *. lia.
    + by destruct (cut sp t) as [[b a]|].
Qed.

Lemma cut_disk_edge (s : string) :
  cut "::" s = None -> cut "::" (s +:+ ".edge") = None.
Proof.
  intros H. rewrite cut_app_r; [done|done|].
  intros [|[|n]] Hn; cbn [String.length] in Hn; [lia|done|lia].
Qed.

Lemma cut_edge_edge (s : string) :
  cut ".edge" s = None -> cut ".edge" (s +:+ ".edge") = Some (s, "").
Proof.
  intros H. rewrite cut_app_r; [|done|].
  - change (cut ".edge" ".edge") with (Some ("", "")). cbv beta iota.
    by rewrite append_empty_r.
  - intros [|[|[|[|[|n]]]]] Hn; cbn [String.length] in Hn; (lia || done).
Qed.

End Cuts.

(** ** Path resolver *)


(** X7: writing the [.edge] extension at the end of a reference that
    holds no [.edge] changes nothing: both references name the same disk
    and the same file. *)
Theorem extractDiskAndTemplateName_extension (p : Platform) (reference : string) :
  JsString.cut ".edge" reference = None ->
  extractDiskAndTemplateName p (reference +:+ ".edge")
  = extractDiskAndTemplateName p reference.
Proof.
  intros Hedge. rewrite !extract_resolved.
  unfold resolved_reference, disk_and_template.
  assert (forall template,
            JsString.cut ".edge" template = None ->
            path_and_extension (template +:+ ".edge") = path_and_extension template)
    as Hpath.
  { intros template H. unfold path_and_extension.
    by rewrite (cut_edge_edge _ H), H. }
  destruct (JsString.cut "::" reference) as [[disk template]|] eqn:C.
  - rewrite (cut_app_l _ _ _ _ _ C).
    rewrite Hpath; [done|].
    by apply (cut_after_free "::" ".edge" reference disk).
  - by rewrite (cut_disk_edge _ C), Hpath.
Qed.

Lemma extractDiskAndTemplateName_extension_witness :
  extractDiskAndTemplateName posix ("users::admin.list" +:+ ".edge")
  = extractDiskAndTemplateName posix "users::admin.list".
Proof. apply extractDiskAndTemplateName_extension. reflexivity. Defined.

(** ** Section merger *)

Section MergerWalk.

Implicit Types (sections : gmap string Token) (node : Token) (id : string).

Lemma with_children_twice node (children children' : list Token) :
  with_children (with_children node children) children' = with_children node children'.
Proof. by destruct node. Qed.

Lemma with_children_own node : with_children node (children_of node) = node.
Proof. by destruct node. Qed.

(** An entry only ever changes in its children. *)
Lemma replace_section_entry sections node id (e : Token) :
  sections !! id = Some e ->
  exists children,
    (replace_section sections node).1 !! id = Some (with_children e children).
Proof.
  intros He.
  destruct (replace_section_cases sections node)
    as [[-> _]|[[-> _]|[(e' & -> & _)|(e' & -> & _ & He' & _)]]]; cbn [fst];
    try (exists (children_of e); by rewrite with_children_own).
  destruct (decide (section_id node = id)) as [Heq|Hne].
  - rewrite Heq in *. rewrite lookup_insert_eq. rewrite He in He'.
    injection He' as <-. eauto.
  - rewrite lookup_insert_ne by done. exists (children_of e).
    by rewrite with_children_own.
Qed.

Lemma map_base_entry (base : list Token) : forall sections id (e : Token),
  sections !! id = Some e ->
  exists children, (map_base sections base).1 !! id = Some (with_children e children).
Proof.
  induction base as [|b base IH]; intros sections id e He.
  - exists (children_of e). by rewrite with_children_own.
  - rewrite map_base_cons.
    destruct (replace_section_entry sections b id e He) as [cs Hcs].
    destruct (replace_section sections b).2; cbn [fst]; [|by eauto].
    destruct (IH _ _ _ Hcs) as [cs' Hcs']. exists cs'.
    by rewrite Hcs', with_children_twice.
Qed.

(** An entry that does not start with a [super] tag is never written. *)
Lemma replace_section_keeps sections node id (e : Token) :
  sections !! id = Some e -> hasChildSuper e = false ->
  (replace_section sections node).1 !! id = Some e.
Proof.
  intros He Hplain.
  destruct (replace_section_cases sections node)
    as [[-> _]|[[-> _]|[(e' & -> & _)|(e' & -> & _ & He' & Hsuper)]]]; cbn [fst];
    try done.
  rewrite lookup_insert_ne; [done|]. intros Heq. congruence.
Qed.

Lemma map_base_keeps (base : list Token) : forall sections id (e : Token),
  sections !! id = Some e -> hasChildSuper e = false ->
  (map_base sections base).1 !! id = Some e.
Proof.
  induction base as [|b base IH]; intros sections id e He Hplain; [done|].
  rewrite map_base_cons.
  pose proof (replace_section_keeps sections b id e He Hplain) as Hstep.
  destruct (replace_section sections b).2; cbn [fst]; [by apply IH|done].
Qed.

Lemma section_ids_cons (b : Token) (base : list Token) :
  section_ids (b :: base)
  = if isBlock b "section" then section_id b :: section_ids base
    else section_ids base.
Proof. unfold section_ids. cbn [List.filter]. by destruct (isBlock b "section"). Qed.

Lemma section_ids_In (b : Token) (base : list Token) :
  In b base -> isBlock b "section" = true -> In (section_id b) (section_ids base).
Proof.
  intros Hin Hsec. unfold section_ids. apply in_map, filter_In. by split.
Qed.

Lemma map_base_unique (base : list Token) :
  forall original sections : gmap string Token,
    List.NoDup (section_ids base) ->
    (forall b, In b base -> isBlock b "section" = true ->
       sections !! section_id b = original !! section_id b) ->
    no_inherited sections base ->
    exists slots,
      (map_base sections base).2 = Return slots
      /\ map (read (map_base sections base).1) slots
         = map (merged_node original) base.
Proof.
  induction base as [|b base IH]; intros original sections Hdup Hsame Hsafe;
    [by exists []|].
  rewrite map_base_cons.
  assert (forall b', In b' base -> In b' (b :: base)) as Hin by (by right).
  pose proof (no_inherited_step _ _ _ Hsafe) as Hsafe'.
  assert (List.NoDup (section_ids base)
          /\ (isBlock b "section" = true -> ~ In (section_id b) (section_ids base)))
    as [Hdup' Hfresh].
  { rewrite section_ids_cons in Hdup. destruct (isBlock b "section"); [|done].
    apply List.NoDup_cons_iff in Hdup as [? ?]. auto. }
  assert (forall b', In b' base -> isBlock b' "section" = true ->
            (replace_section sections b).1 !! section_id b'
            = original !! section_id b') as Hsame'.
  { intros b' Hb' Hsec'. rewrite <- (Hsame b') by auto.
    apply replace_section_other, is_section_named_false.
    intros Hsec Hid. apply (Hfresh Hsec). rewrite Hid. by apply section_ids_In. }
  destruct (IH original _ Hdup' Hsame' Hsafe') as (slots & Hslots & Hread).
  cbn [map]. unfold merged_node at 1.
  destruct (isBlock b "section") eqn:Hsec.
  - rewrite <- (Hsame b) by (done || by left).
    destruct (sections !! section_id b) as [e|] eqn:He.
    + destruct (hasChildSuper e) eqn:Hsuper.
      * rewrite (replace_section_super _ _ _ Hsec He Hsuper) in *. cbn [fst snd] in *.
        exists (Shared (section_id b) :: slots). rewrite Hslots. split; [done|].
        cbn [map read]. rewrite Hread.
        rewrite map_base_other, lookup_insert_eq; [done|].
        intros n Hn. apply is_section_named_false. intros Hnsec Hid.
        apply (Hfresh eq_refl). rewrite <- Hid. by apply section_ids_In.
      * rewrite (replace_section_plain _ _ _ Hsec He Hsuper) in *. cbn [fst snd] in *.
        exists (Shared (section_id b) :: slots). rewrite Hslots. split; [done|].
        cbn [map read]. by rewrite Hread, (map_base_keeps base _ _ _ He Hsuper).
    + assert (get_section sections (section_id b) = Undefined) as Hget.
      { apply get_section_None; [|done]. apply Hsafe; [by left|done]. }
      rewrite replace_section_own in * by (by right). cbn [fst snd] in *.
      exists (Own b :: slots). rewrite Hslots. split; [done|].
      cbn [map read]. by rewrite Hread.
  - rewrite replace_section_own in * by (by left). cbn [fst snd] in *.
    exists (Own b :: slots). rewrite Hslots. split; [done|].
    cbn [map read]. by rewrite Hread.
Qed.

(** A walk throws nothing but a type error. *)
Lemma map_base_throws_only (base : list Token) : forall sections (e : Exception),
  (map_base sections base).2 = Throw e -> e = TypeError.
Proof.
  induction base as [|b base IH]; intros sections e; [done|].
  rewrite map_base_cons.
  destruct (replace_section_cases sections b)
    as [[-> _]|[[-> _]|[(e' & -> & _)|(e' & -> & _)]]]; cbn [fst snd];
    try (destruct (map_base _ base).2 eqn:Hrest; [done|];
         cbn [push]; intros [= <-]; by eapply IH).
  by intros [= <-].
Qed.

End MergerWalk.

(** X8: when [mergeSections] returns, the list has one token for each
    [set] tag at the top level of the extended list and one for each token
    of the base list; nothing else of the extended list takes a place of
    its own. *)
Theorem mergeSections_length (base extended result : list Token) :
  mergeSections base extended = Return result ->
  length result = length (extendedSetCalls extended) + length base.
Proof.
  intros (slots & Hslots & ->)%mergeSections_Return.
  by rewrite length_app, length_map, (map_base_length _ _ _ Hslots).
Qed.

Lemma mergeSections_length_witness :
  length [tag "set" "'title', 'Home'" [];
          tag "set" "'lang', 'en'" [];
          text "<main>";
          tag "section" " 'content' " [text "child content"];
          tag "section" "'sidebar'" [text "layout sidebar"];
          text "</main>"]
  = length (extendedSetCalls overriding_child) + length layout.
Proof. apply (mergeSections_length layout overriding_child). reflexivity. Defined.

(** X9: a merge that returns keeps the layout of the base list: behind the
    hoisted [set] tags, a place holds a section exactly when the base list
    held a section there, and under the same identifier; a token that is
    not a section is the base token itself.  A merged list can thus serve
    as the base of a further merge. *)
Theorem mergeSections_layout (base extended result : list Token) (i : nat)
    (b : Token) :
  mergeSections base extended = Return result ->
  base !! i = Some b ->
  exists merged,
    result !! (length (extendedSetCalls extended) + i)%nat = Some merged
    /\ isBlock merged "section" = isBlock b "section"
    /\ section_id merged = section_id b
    /\ (isBlock b "section" = false -> merged = b).
Proof.
  intros (slots & Hslots & ->)%mergeSections_Return Hi.
  rewrite lookup_app_r by lia.
  replace (_ + i - _)%nat with i by lia. rewrite list_lookup_fmap.
  destruct (isBlock b "section") eqn:Hsec.
  - destruct (extendedSections extended !! section_id b) as [e|] eqn:He.
    + rewrite (map_base_shared _ _ _ _ _ Hslots Hi Hsec) by (by rewrite He).
      destruct (map_base_entry base _ _ _ He) as [cs Hcs].
      pose proof (extendedSections_files extended _ _ He) as [Hesec Heid].
      exists (with_children e cs). cbn [fmap option_fmap option_map read].
      rewrite Hcs. cbn [default from_option].
      by rewrite with_children_block, with_children_id.
    + rewrite (map_base_own _ _ _ _ _ Hslots Hi) by auto. exists b. by rewrite Hsec.
  - rewrite (map_base_own _ _ _ _ _ Hslots Hi) by auto. exists b. by rewrite Hsec.
Qed.

Lemma mergeSections_layout_witness :
  exists merged,
    [text "<main>";
     tag "section" "'content'"
       [text "layout content"; tag "super" "" []; text "child content"];
     tag "section" "'sidebar'" [text "layout sidebar"];
     text "</main>"]
      !! (length (extendedSetCalls extending_child) + 1)%nat = Some merged
    /\ isBlock merged "section"
       = isBlock (tag "section" "'content'" [text "layout content"]) "section"
    /\ section_id merged
       = section_id (tag "section" "'content'" [text "layout content"])
    /\ (isBlock (tag "section" "'content'" [text "layout content"]) "section" = false ->
        merged = tag "section" "'content'" [text "layout content"]).
Proof.
  apply (mergeSections_layout layout extending_child _ 1); reflexivity.
Defined.

(** X10: base sections that go by the same identifier are all replaced by
    one and the same extended node, so the merged list shows the same
    token, children included, in each of their places. *)
Theorem mergeSections_shared (base extended result : list Token) (i j : nat)
    (b b' : Token) :
  mergeSections base extended = Return result ->
  base !! i = Some b -> base !! j = Some b' ->
  isBlock b "section" = true -> isBlock b' "section" = true ->
  section_id b = section_id b' ->
  is_Some (extendedSections extended !! section_id b) ->
  result !! (length (extendedSetCalls extended) + i)%nat
  = result !! (length (extendedSetCalls extended) + j)%nat.
Proof.
  intros (slots & Hslots & ->)%mergeSections_Return Hi Hj Hb Hb' Hid Hfile.
  rewrite !lookup_app_r by lia.
  replace (_ + i - _)%nat with i by lia. replace (_ + j - _)%nat with j by lia.
  rewrite !list_lookup_fmap.
  rewrite (map_base_shared _ _ _ _ _ Hslots Hi Hb Hfile).
  rewrite (map_base_shared _ _ _ _ _ Hslots Hj Hb') by (by rewrite <- Hid).
  by rewrite Hid.
Qed.

Lemma mergeSections_shared_witness :
  [tag "section" "'content'" [text "one"; tag "super" "" []; text "child content"];
   tag "section" "'content'" [text "one"; tag "super" "" []; text "child content"]]
    !! (length (extendedSetCalls extending_child) + 0)%nat
  = [tag "section" "'content'" [text "one"; tag "super" "" []; text "child content"];
     tag "section" "'content'" [text "one"; tag "super" "" []; text "child content"]]
      !! (length (extendedSetCalls extending_child) + 1)%nat.
Proof.
  apply (mergeSections_shared
           [tag "section" "'content'" [text "one"];
            tag "section" "'content'" [text "two"]]
           extending_child _ 0 1
           (tag "section" "'content'" [text "one"])
           (tag "section" "'content'" [text "two"]));
    try reflexivity.
  eexists. reflexivity.
Defined.

(** X11: what the merge does to the nodes of the extended list.  A section
    on file keeps its name and argument and changes, if at all, in its
    children only; it does not change when it does not start with a
    [super] tag, nor when no section of the base list goes by its
    identifier. *)
Theorem mergeSections_effect (base extended : list Token) (id : string)
    (node : Token) :
  extendedSections extended !! id = Some node ->
  (exists children,
     sections_after base extended !! id = Some (with_children node children))
  /\ (hasChildSuper node = false
      \/ (forall b, In b base -> is_section_named id b = false) ->
      sections_after base extended !! id = Some node).
Proof.
  intros Hnode. unfold sections_after. split.
  - by apply map_base_entry.
  - intros [Hplain|Hbase].
    + by apply map_base_keeps.
    + by rewrite map_base_other.
Qed.

Lemma mergeSections_effect_witness :
  (exists children,
     sections_after layout overriding_child !! "'content'"
     = Some (with_children (tag "section" " 'content' " [text "child content"])
               children))
  /\ (hasChildSuper (tag "section" " 'content' " [text "child content"]) = false
      \/ (forall b, In b layout -> is_section_named "'content'" b = false) ->
      sections_after layout overriding_child !! "'content'"
      = Some (tag "section" " 'content' " [text "child content"])).
Proof. apply (mergeSections_effect layout overriding_child). reflexivity. Defined.

(** X12: with nothing to extend the merge gives the [set] tags of the
    extended list; with nothing extending it gives the base list, provided
    no section of the base list goes by the name of a member of
    [Object.prototype]. *)
Theorem mergeSections_empty (tokens : list Token) :
  mergeSections [] tokens = Return (extendedSetCalls tokens)
  /\ ((forall n, In n tokens -> isBlock n "section" = true ->
         member (section_id n) Object_prototype = false) ->
      mergeSections tokens [] = Return tokens).
Proof.
  split.
  - rewrite mergeSections_unfold. cbn [map_base fst snd map]. by rewrite app_nil_r.
  - intros H. rewrite mergeSections_unfold.
    rewrite map_base_untouched; [cbn [fst snd]; by rewrite read_own|].
    intros node Hnode. destruct (isBlock node "section") eqn:Hsec; [right|by left].
    unfold get_section, inherits.
    change (extendedSections []) with (∅ : gmap string Token).
    by rewrite !lookup_empty, (H node Hnode Hsec).
Qed.

Lemma mergeSections_empty_witness : mergeSections layout [] = Return layout.
Proof.
  apply (proj2 (mergeSections_empty layout)).
  intros n [<-|[<-|[<-|[<-|[]]]]] _; reflexivity.
Defined.

(** X13: when no two sections at the top level of the base list go by the
    same identifier, and none asks the dictionary for a member it only
    inherits, the merge works token by token: behind the hoisted [set]
    tags, each base token stays as it is, unless it is a section with an
    extended section on file; then it becomes that extended section, as it
    is, or, when that one starts with a [super] tag, with the children of
    the base section put in front of its own. *)
Theorem mergeSections_unique (base extended : list Token) :
  List.NoDup (section_ids base) ->
  no_inherited (extendedSections extended) base ->
  mergeSections base extended
  = Return (extendedSetCalls extended
              ++ map (merged_node (extendedSections extended)) base).
Proof.
  intros Hdup Hsafe. rewrite mergeSections_unfold.
  destruct (map_base_unique base (extendedSections extended)
              (extendedSections extended) Hdup) as (slots & -> & ->); done.
Qed.

Lemma mergeSections_unique_witness :
  mergeSections layout extending_child
  = Return (extendedSetCalls extending_child
              ++ map (merged_node (extendedSections extending_child)) layout).
Proof.
  apply mergeSections_unique.
  - vm_compute. constructor; [intros [H|[]]; discriminate|].
    constructor; [intros []|]. constructor.
  - intros b [<-|[<-|[<-|[<-|[]]]]] _; vm_compute; discriminate.
Defined.

(** X17: [mergeSections] returns a list exactly when no section at the top
    level of the base list asks the dictionary for a member it only
    inherits, and throws a type error otherwise, never anything else.  In
    particular it throws when a base section that the extended list does
    not declare goes by the name of a member of [Object.prototype], such as
    [constructor] or [toString]. *)
Theorem mergeSections_outcome (base extended : list Token) :
  (no_inherited (extendedSections extended) base <->
   exists result, mergeSections base extended = Return result)
  /\ (forall e, mergeSections base extended = Throw e -> e = TypeError)
  /\ (forall b,
        In b base -> isBlock b "section" = true ->
        extendedSections extended !! section_id b = None ->
        member (section_id b) Object_prototype = true ->
        mergeSections base extended = Throw TypeError).
Proof.
  assert (forall b, In b base -> isBlock b "section" = true ->
            get_section (extendedSections extended) (section_id b) = Inherited ->
            mergeSections base extended = Throw TypeError) as Hthrows.
  { intros b Hb Hsec Hget.
    by rewrite mergeSections_unfold, (map_base_throws _ _ _ Hb Hsec Hget). }
  split_and!.
  - split.
    + intros [slots Hslots]%map_base_returns.
      rewrite mergeSections_unfold, Hslots. eauto.
    + intros [result Hresult] b Hb Hsec Hget.
      by rewrite (Hthrows b Hb Hsec Hget) in Hresult.
  - intros e. rewrite mergeSections_unfold.
    destruct (map_base (extendedSections extended) base).2 as [slots|e'] eqn:Hwalk;
      [done|]. intros [= <-].
    by eapply map_base_throws_only.
  - intros b Hb Hsec Hnone Hmember. apply (Hthrows b Hb Hsec).
    unfold get_section, inherits. by rewrite Hnone, Hmember.
Qed.

Lemma mergeSections_outcome_witness :
  mergeSections [text "<main>"; tag "section" " toString " []] overriding_child
  = Throw TypeError.
Proof.
  apply (proj2 (proj2 (mergeSections_outcome _ overriding_child))
           (tag "section" " toString " []));
    [right; left|..]; reflexivity.
Defined.

(** X18: when the only section of the extended list is a section [A] that
    does not start with a [super] tag, and no section of the base list
    asks the dictionary for a member it only inherits, the merged list
    keeps every base token in its place and order, except that each base
    section [A] is replaced by the extended section as a whole. *)
Theorem mergeSections_overrides (base extended : list Token) (A : string)
    (extendedA : Token) :
  List.filter (fun node => isBlock node "section") extended = [extendedA] ->
  section_id extendedA = A ->
  hasChildSuper extendedA = false ->
  no_inherited (extendedSections extended) base ->
  mergeSections base extended
  = Return (extendedSetCalls extended
              ++ map (fun node => if is_section_named A node then extendedA else node)
                     base).
Proof.
  intros Hsections HA Hplain Hsafe.
  assert (extendedSections extended = <[A := extendedA]> ∅) as Hfile.
  { unfold extendedSections. rewrite Hsections. cbn [fold_left]. by rewrite HA. }
  rewrite mergeSections_unfold. rewrite Hfile in *.
  rewrite map_base_plain; [|intros id e|done].
  - cbn [fst snd]. do 2 f_equal. rewrite map_map. apply map_ext. intros node.
    unfold is_section_named.
    destruct (isBlock node "section"); [|done]. cbn [andb].
    destruct (String.eqb_spec (section_id node) A) as [->|Hne].
    + by rewrite lookup_insert_eq; cbn [read]; rewrite lookup_insert_eq.
    + by rewrite lookup_insert_ne, lookup_empty.
  - destruct (decide (A = id)) as [<-|Hne].
    + rewrite lookup_insert_eq. by intros [= <-].
    + by rewrite lookup_insert_ne, lookup_empty.
Qed.

Lemma mergeSections_overrides_witness :
  mergeSections layout overriding_child
  = Return [tag "set" "'title', 'Home'" [];
            tag "set" "'lang', 'en'" [];
            text "<main>";
            tag "section" " 'content' " [text "child content"];
            tag "section" "'sidebar'" [text "layout sidebar"];
            text "</main>"].
Proof.
  apply (mergeSections_overrides layout overriding_child "'content'"
           (tag "section" " 'content' " [text "child content"]));
    try reflexivity.
  intros b [<-|[<-|[<-|[<-|[]]]]] _; vm_compute; discriminate.
Defined.

(** X19: when no section of the base list has a counterpart in the
    dictionary, declared or inherited, the merged list is the [set] tags
    of the extended list, in the order they were written, followed by the
    base list as it is. *)
Theorem mergeSections_hoists (base extended : list Token) :
  (forall node, In node base -> isBlock node "section" = true ->
     get_section (extendedSections extended) (section_id node) = Undefined) ->
  mergeSections base extended
  = Return (List.filter (fun node => isBlock node "set") extended ++ base).
Proof.
  intros H. rewrite mergeSections_unfold.
  rewrite map_base_untouched; [cbn [fst snd]; by rewrite read_own|].
  intros node Hnode. destruct (isBlock node "section") eqn:Hsec; auto.
Qed.

Lemma mergeSections_hoists_witness :
  mergeSections layout [tag "set" "'x', 1" []; text "dropped"; tag "set" "'y', 2" []]
  = Return ([tag "set" "'x', 1" []; tag "set" "'y', 2" []] ++ layout).
Proof.
  apply (mergeSections_hoists layout).
  intros b [<-|[<-|[<-|[<-|[]]]]] _; reflexivity.
Defined.

(** ** White space around section identifiers *)

Section Trim.

Import JsString.

Lemma reverse_onto_app (s acc : string) : reverse_onto acc s = reverse s +:+ acc.
Proof.
  revert acc. induction s as [|c s IH]; intros acc; [done|].
  unfold reverse. cbn [reverse_onto].
  rewrite (IH (String c acc)), (IH (String c "")). by rewrite append_assoc.
Qed.

Lemma reverse_cons c (s : string) : reverse (String c s) = reverse s +:+ String c "".
Proof. unfold reverse at 1. cbn [reverse_onto]. apply reverse_onto_app. Qed.

Lemma reverse_app (s t : string) : reverse (s +:+ t) = reverse t +:+ reverse s.
Proof.
  induction s as [|c s IH]; [by rewrite append_empty_l, append_empty_r|].
  by rewrite append_cons, !reverse_cons, IH, append_assoc.
Qed.

Lemma blank_app (s t : string) : blank (s +:+ t) = blank s && blank t.
Proof.
  induction s as [|c s IH]; [done|]. rewrite append_cons. cbn [blank].
  by rewrite IH, andb_assoc.
Qed.

Lemma blank_reverse (s : string) : blank (reverse s) = blank s.
Proof.
  induction s as [|c s IH]; [done|].
  rewrite reverse_cons, blank_app, IH. cbn [blank].
  by rewrite andb_true_r, andb_comm.
Qed.

Lemma trim_start_blank (s : string) : blank s = true -> trim_start s = "".
Proof.
  induction s as [|c s IH]; [done|]. cbn [blank trim_start].
  destruct (is_white_space c); [apply IH|done].
Qed.

Lemma trim_start_app (s t : string) :
  trim_start (s +:+ t) = if blank s then trim_start t else trim_start s +:+ t.
Proof.
  induction s as [|c s IH]; [done|]. rewrite append_cons. cbn [blank trim_start].
  destruct (is_white_space c); [apply IH|done].
Qed.

Lemma trim_end_app (s t : string) : blank t = true -> trim_end (s +:+ t) = trim_end s.
Proof.
  intros H. unfold trim_end. by rewrite reverse_app, trim_start_app, blank_reverse, H.
Qed.

Lemma trim_padded (before s after : string) :
  blank before = true -> blank after = true ->
  trim (before +:+ s +:+ after) = trim s.
Proof.
  intros Hb Ha. unfold trim. rewrite trim_start_app, Hb, trim_start_app.
  destruct (blank s) eqn:Hs.
  - by rewrite (trim_start_blank after), (trim_start_blank s).
  - by apply trim_end_app.
Qed.

End Trim.

(** X14: white space around the argument of a section does not count: two
    section tags whose arguments differ by leading and trailing white
    space only go by the same identifier, so that the one written in the
    extended list is filed where the one of the base list looks for it. *)
Theorem section_id_padded (before after jsArg : string)
    (type type' : TagTypes) (lineno lineno' : nat) (children children' : list Token) :
  blank before = true -> blank after = true ->
  section_id (TagToken type "section" (before +:+ jsArg +:+ after) lineno children)
  = section_id (TagToken type' "section" jsArg lineno' children')
  /\ is_section_named
       (section_id (TagToken type' "section" jsArg lineno' children'))
       (TagToken type "section" (before +:+ jsArg +:+ after) lineno children)
     = true.
Proof.
  intros Hb Ha.
  assert (section_id (TagToken type "section" (before +:+ jsArg +:+ after) lineno children)
          = section_id (TagToken type' "section" jsArg lineno' children')) as Hid.
  { unfold section_id. cbn [jsArg_of]. by apply trim_padded. }
  split; [done|]. apply is_section_named_true. by split.
Qed.

Lemma section_id_padded_witness :
  section_id (TagToken TAG "section" ("  " +:+ "'content'" +:+ " ") 4 [])
  = section_id (TagToken TAG "section" "'content'" 2 [text "layout content"])
  /\ is_section_named
       (section_id (TagToken TAG "section" "'content'" 2 [text "layout content"]))
       (TagToken TAG "section" ("  " +:+ "'content'" +:+ " ") 4 [])
     = true.
Proof. apply section_id_padded; reflexivity. Defined.

(** ** Further edge cases *)

(** X15: an assignment whose left side is not an identifier, such as a
    member expression, has no name to give: [parseSequenceExpression]
    files its value under the key [undefined]. *)
Theorem parseSequenceExpression_unnamed parser l l' (first lhs rhs : Expr) :
  name_of lhs = None ->
  fst (parseSequenceExpression
         (SequenceExpression l [first; AssignmentExpression l' lhs rhs]) parser)
  = Return (statementToString parser first,
            "{ undefined: " +:+ statementToString parser rhs +:+ " }").
Proof.
  intros H. rewrite parseSequenceExpression_sequence.
  cbn [flat_map contributed_pairs app]. by rewrite H.
Qed.

Lemma parseSequenceExpression_unnamed_witness :
  fst (parseSequenceExpression
         (SequenceExpression {| line := 1; column := 11 |}
            [Literal {| line := 1; column := 12 |} "'card'";
             AssignmentExpression {| line := 1; column := 20 |}
               (OtherExpression MemberExpression {| line := 1; column := 20 |})
               (Literal {| line := 1; column := 33 |} "'hi'")])
         sample_parser)
  = Return ("'card'", "{ undefined: 'hi' }").
Proof.
  apply (parseSequenceExpression_unnamed sample_parser). reflexivity.
Defined.

